(** * aldryn_newsblog.models: slug allocation, author resolution, latest entries

    A shallow embedding of [src/aldryn_newsblog/models.py].

    The module is Django code: its methods mutate the instance [self] and talk
    to the database through the ORM.  The embedding threads an explicit state
    (database tables, the instance, and the trace of storage calls) through a
    small state-and-exception monad.  Python exceptions are results
    [Raised e s]; the [while True] loop of the slug search runs on fuel.

    What lives outside the module (Django's [slugify], the storage layer,
    the settings object) is either a parameter of the development or a
    definition whose comment says where its behaviour is taken from. *)

From Stdlib Require Import Ascii.
From stdpp Require Import gmap strings list fin_maps pretty sorting.

Local Open Scope Z_scope.

(** ** Exceptions *)

(** Which database constraint an [IntegrityError] reports.  Python's
    [except IntegrityError] cannot tell them apart: it matches the class. *)
Inductive constraint :=
  | UniqueLanguageSlug                (* unique_together (language_code, slug) *)
  | NotNull (column : string)
  | OtherConstraint (label : string).

Inductive exn :=
  | IntegrityError (c : constraint)
  | DatabaseError (msg : string)
  | MultipleObjectsReturned
  | AttributeError (attr : string)
  | AssertionError (msg : string)
  | ImproperlyConfigured (msg : string).

Definition is_IntegrityError (e : exn) : bool :=
  match e with IntegrityError _ => true | _ => false end.

(** ** The monad: state, exceptions, fuel *)

Inductive result (S A : Type) :=
  | Returned (a : A) (s : S)
  | Raised (e : exn) (s : S)
  | OutOfFuel.
Arguments Returned {S A} a s.
Arguments Raised {S A} e s.
Arguments OutOfFuel {S A}.

Definition M (S A : Type) : Type := S → result S A.

Definition ret {S A} (a : A) : M S A := λ s, Returned a s.

Definition bind {S A B} (m : M S A) (k : A → M S B) : M S B :=
  λ s, match m s with
       | Returned a s' => k a s'
       | Raised e s' => Raised e s'
       | OutOfFuel => OutOfFuel
       end.

#[global] Instance M_ret {S} : MRet (M S) := λ A, @ret S A.
#[global] Instance M_bind {S} : MBind (M S) := λ A B k m, @bind S A B m k.

Definition raise {S A} (e : exn) : M S A := λ s, Raised e s.

Definition get {S} : M S S := λ s, Returned s s.

Definition modify {S} (f : S → S) : M S unit := λ s, Returned tt (f s).

(** [try: m  except <handles>: pass] followed by [rest]; when [m] returns,
    the function returns with it (the [try] body is a [return] statement). *)
Definition try_except {S A} (m : M S A) (handles : exn → bool) (rest : M S A)
    : M S A :=
  λ s, match m s with
       | Raised e s' => if handles e then rest s' else Raised e s'
       | r => r
       end.

(** The state a computation ends in, whether it returned or raised. *)
Definition final_state {S A} (r : result S A) : option S :=
  match r with
  | Returned _ s => Some s
  | Raised _ s => Some s
  | OutOfFuel => None
  end.

(** [for x in xs: body], where the body either returns from the enclosing
    function ([Some v]) or falls off its end ([None]) and the loop goes on.
    A loop that runs off the list yields [None]. *)
Fixpoint for_in {S A X} (xs : list X) (body : X → M S (option A))
    : M S (option A) :=
  match xs with
  | [] => mret None
  | x :: xs' =>
      r ← body x;
      match r with
      | Some v => mret (Some v)
      | None => for_in xs' body
      end
  end.

(** ** Settings and module initialisation (lines 27-33) *)

(** The two attributes of [django.conf.settings] the module reads.  [None]
    is an attribute the settings object does not define: reading it raises
    [AttributeError].  [LANGUAGES] is a sequence of (code, name) pairs. *)
Record Settings := {
  LANGUAGES : option (list (string * string));
  LANGUAGE : option string;
}.

(** The module-level statement computing [LANGUAGE_CODES]; the only state
    is the settings object, which is not changed. *)
Definition init_LANGUAGE_CODES : M Settings (list string) :=
  settings ← get;
  match LANGUAGES settings with
  | None => raise (AttributeError "LANGUAGES")
  | Some (l :: ls) => mret (fst <$> (l :: ls))
  | Some [] =>
      match LANGUAGE settings with
      | None => raise (AttributeError "LANGUAGE")
      | Some "" =>
          raise (ImproperlyConfigured
                   "Neither LANGUAGES nor LANGUAGE was found in settings.")
      | Some code => mret [code]
      end
  end.

(** ** Data model *)

(** [django.contrib.auth.models.User], as far as [save] reads it. *)
Record User := {
  user_id : Z;
  first_name : string;
  last_name : string;
}.

(** A row of [aldryn_people.Person]. *)
Record Person := {
  person_user : option Z;
  person_name : string;
}.

(** A row of the translations table of [Article] (lines 46-69), keyed by
    master and language; the fields the module itself reads or writes. *)
Record Translation := {
  t_title : string;
  t_slug : string;
}.

(** A stored article: the master row (lines 71-83) with its translations. *)
Record ArticleRow := {
  row_author : option Z;
  row_owner : Z;
  row_publishing_date : Z;
  row_translations : gmap string Translation;
}.

Record Database := {
  persons : gmap Z Person;
  articles : gmap Z ArticleRow;
}.

(** The [Article] instance a method runs on.  [pk] is the primary key
    ([self.id]; [None] before the first insert), [language_code] the
    language the instance is being edited in, and [title], [slug] the
    translated fields of that language.  [name] is the attribute [save]
    reads at lines 114 and 137: the class declares no field of that name,
    so it is [None] unless something outside the declared fields has set
    it on the instance. *)
Record Article := {
  pk : option Z;
  language_code : string;
  title : string;
  slug : string;
  name : option string;
  author : option Z;
  owner : User;
  publishing_date : option Z;
}.

Definition set_pk (i : Z) (a : Article) : Article :=
  {| pk := Some i; language_code := language_code a; title := title a;
     slug := slug a; name := name a; author := author a; owner := owner a;
     publishing_date := publishing_date a |}.

Definition set_slug (v : string) (a : Article) : Article :=
  {| pk := pk a; language_code := language_code a; title := title a;
     slug := v; name := name a; author := author a; owner := owner a;
     publishing_date := publishing_date a |}.

Definition set_author (p : Z) (a : Article) : Article :=
  {| pk := pk a; language_code := language_code a; title := title a;
     slug := slug a; name := name a; author := Some p; owner := owner a;
     publishing_date := publishing_date a |}.

(** The calls [save] makes to the storage layer. *)
Inductive Op :=
  | GetOrCreatePerson (u : Z)
  | SelectSlugs (lang : string) (exclude : option Z)
  | SaveArticle (a : Article).

(** A storage call that leaves the slug [v] alone: it is no slug query,
    and if it writes an article it writes it with [v]. *)
Definition leaves_slug (v : string) (o : Op) : Prop :=
  match o with
  | GetOrCreatePerson _ => True
  | SelectSlugs _ _ => False
  | SaveArticle a => slug a = v
  end.

(** The state [save] runs in. *)
Record State := {
  db : Database;
  self : Article;
  trace : list Op;
}.

Definition with_self (f : Article → Article) (s : State) : State :=
  {| db := db s; self := f (self s); trace := trace s |}.

Definition with_db (f : Database → Database) (s : State) : State :=
  {| db := f (db s); self := self s; trace := trace s |}.

Definition log (o : Op) (s : State) : State :=
  {| db := db s; self := self s; trace := trace s ++ [o] |}.

Definition set_persons (ps : gmap Z Person) (d : Database) : Database :=
  {| persons := ps; articles := articles d |}.

Definition set_articles (arts : gmap Z ArticleRow) (d : Database) : Database :=
  {| persons := persons d; articles := arts |}.

Definition fresh_state (d : Database) (a : Article) : State :=
  {| db := d; self := a; trace := [] |}.

(** ** Pure helpers of the slug search *)

(** [slug.startswith(prefix)] *)
Definition startswith (s prefix : string) : bool := String.prefix prefix s.

(** The filter of lines 132-134: [if slug and slug.startswith(self.slug)].
    A fetched value is [None] when the article has no slug in the language
    consulted; [None] and the empty string are both false in Python. *)
Definition collides (base : string) (fetched : option string) : option string :=
  match fetched with
  | Some s => if bool_decide (s ≠ "") && startswith s base then Some s else None
  | None => None
  end.

Definition colliding_slugs (base : string) (all_slugs : list (option string))
    : list string :=
  omap (collides base) all_slugs.

(** The slug of an article row in a language, if it has that translation. *)
Definition slug_of (lang : string) (r : ArticleRow) : option string :=
  t_slug <$> row_translations r !! lang.

(** The unique_together of line 68, as the storage layer checks it for a
    write of ([lang], [v]) by article [i]: some other article already holds
    [v] in [lang]. *)
Definition slug_taken (arts : gmap Z ArticleRow) (i : Z) (lang v : string)
    : Prop :=
  map_Exists (λ j r, j ≠ i ∧ slug_of lang r = Some v) arts.

#[global] Instance slug_taken_dec arts i lang v :
  Decision (slug_taken arts i lang v).
Proof. unfold slug_taken. apply _. Defined.

(** What the slug query can see of [v]: an article other than the
    excluded one holds [v] in [lang]. *)
Definition held_by_other (arts : gmap Z ArticleRow) (exclude : option Z)
    (lang v : string) : Prop :=
  ∃ j r, Some j ≠ exclude ∧ arts !! j = Some r ∧ slug_of lang r = Some v.

(** The row written for instance [a] under key [i]: the master columns are
    replaced, the translation of the instance's language is inserted or
    replaced, the translations of other languages stay. *)
Definition store_article (arts : gmap Z ArticleRow) (i : Z) (a : Article)
    (date : Z) : gmap Z ArticleRow :=
  let old := from_option row_translations ∅ (arts !! i) in
  <[i := {| row_author := author a;
            row_owner := user_id (owner a);
            row_publishing_date := date;
            row_translations :=
              <[language_code a := {| t_title := title a; t_slug := slug a |}]>
                old |}]> arts.

(** The invariant of the translations table. *)
Definition slugs_unique (arts : gmap Z ArticleRow) : Prop :=
  ∀ lang i j ri rj v,
    arts !! i = Some ri → arts !! j = Some rj →
    slug_of lang ri = Some v → slug_of lang rj = Some v → i = j.

(** The invariant of the person table: one author record per user. *)
Definition one_person_per_user (ps : gmap Z Person) : Prop :=
  ∀ p q x y u,
    ps !! p = Some x → ps !! q = Some y →
    person_user x = Some u → person_user y = Some u → p = q.

(** ** The latest-entries plugin (lines 146-168) *)

Record LatestEntriesPlugin := {
  latest_entries : Z;
}.

(** [latest_entries = models.IntegerField(default=5, ...)] *)
Definition LatestEntriesPlugin_default : LatestEntriesPlugin :=
  {| latest_entries := 5 |}.

(** Lines 163-164: [u'Latest entries: {0}'.format(self.latest_entries)]. *)
Definition LatestEntriesPlugin_str (plugin : LatestEntriesPlugin) : string :=
  "Latest entries: " +:+ pretty (latest_entries plugin).

(** [Meta.ordering = ['-publishing_date']]: [x] may come before [y]. *)
Definition newer_first (x y : Z * ArticleRow) : Prop :=
  row_publishing_date y.2 ≤ row_publishing_date x.2.

#[global] Instance newer_first_dec : RelDecision newer_first.
Proof. intros x y. unfold newer_first. apply _. Defined.

#[global] Instance newer_first_transitive : Transitive newer_first.
Proof. intros x y z. unfold newer_first. lia. Qed.

#[global] Instance newer_first_total : Total newer_first.
Proof. intros x y. unfold newer_first. lia. Qed.

(** An article has a translation in one of the active languages. *)
Definition has_active_translation (active : list string) (r : ArticleRow)
    : Prop :=
  Exists (λ lang, is_Some (row_translations r !! lang)) active.

#[global] Instance has_active_translation_dec active r :
  Decision (has_active_translation active r).
Proof. unfold has_active_translation. apply _. Defined.

(** ** Sample data *)

Definition alice : User :=
  {| user_id := 7; first_name := "Alice"; last_name := "Doe" |}.

(** An [Article(title=..., ...)] built from the declared fields only,
    not yet stored, without author and without slug. *)
Definition new_article (lang ttl : string) (date : option Z) : Article :=
  {| pk := None; language_code := lang; title := ttl; slug := "";
     name := None; author := None; owner := alice; publishing_date := date |}.

(** The same instance after [article.name = n] was assigned on it. *)
Definition with_name (n : string) (a : Article) : Article :=
  {| pk := pk a; language_code := language_code a; title := title a;
     slug := slug a; name := Some n; author := author a; owner := owner a;
     publishing_date := publishing_date a |}.

Definition stored (lang ttl v : string) (date : Z) : ArticleRow :=
  {| row_author := Some 1; row_owner := 7; row_publishing_date := date;
     row_translations := {[ lang := {| t_title := ttl; t_slug := v |} ]} |}.

Definition alice_person : gmap Z Person :=
  {[ 1 := {| person_user := Some 7; person_name := "Alice Doe" |} ]}.

Definition empty_db : Database := {| persons := ∅; articles := ∅ |}.

(** One article, "my-story" in English. *)
Definition db_my_story : Database :=
  {| persons := alice_person;
     articles := {[ 1 := stored "en" "My Story" "my-story" 100 ]} |}.

(** Article 1 holds "my-story" in German only, article 2 holds
    "my-story_1" in English only. *)
Definition db_two_languages : Database :=
  {| persons := alice_person;
     articles := {[ 1 := stored "de" "My Story" "my-story" 100;
                    2 := stored "en" "My Story" "my-story_1" 101 ]} |}.

(** Four articles: three with an English translation, dated 100, 300 and
    200, and the latest one, dated 400, in German only. *)
Definition db_four_articles : Database :=
  {| persons := alice_person;
     articles := {[ 1 := stored "en" "Old" "old" 100;
                    2 := stored "en" "Newest" "newest" 300;
                    3 := stored "en" "Middle" "middle" 200;
                    4 := stored "de" "Nur Deutsch" "nur-deutsch" 400 ]} |}.

(** Article 1 of [db_my_story], loaded in English, with [name] assigned
    and its slug cleared. *)
Definition cleared_story : Article :=
  {| pk := Some 1; language_code := "en"; title := "My Story"; slug := "";
     name := Some "My Story"; author := Some 1; owner := alice;
     publishing_date := Some 100 |}.

(** An instance whose slug was set by hand. *)
Definition article_with_slug (lang ttl v : string) (date : option Z) : Article :=
  set_slug v (new_article lang ttl date).

(** A new "My Story" with [name] assigned, with and without a date. *)
Definition named_story (lang : string) (date : option Z) : Article :=
  with_name "My Story" (new_article lang "My Story" date).

(** No storage failure besides the constraints of the model. *)
Definition no_fault : Op → Database → option exn := λ _ _, None.

(** A stand-in for [django.utils.text.slugify] on ASCII text: characters
    other than letters, digits, underscore, hyphen and white space are
    dropped, the ends are stripped of white space, letters are lowered and
    each run of hyphens and white space becomes one hyphen. *)
Definition is_word (c : Ascii.ascii) : bool :=
  let n := Ascii.N_of_ascii c in
  ((48 <=? n) && (n <=? 57) || (65 <=? n) && (n <=? 90)
   || (97 <=? n) && (n <=? 122) || (n =? 95))%N.

Definition lower (c : Ascii.ascii) : Ascii.ascii :=
  let n := Ascii.N_of_ascii c in
  if ((65 <=? n) && (n <=? 90))%N then Ascii.ascii_of_N (n + 32) else c.

Definition is_sep (c : Ascii.ascii) : bool :=
  Ascii.is_space c || bool_decide (c = "-"%char).

Fixpoint lstrip (l : list Ascii.ascii) : list Ascii.ascii :=
  match l with
  | c :: l' => if Ascii.is_space c then lstrip l' else l
  | [] => []
  end.

Fixpoint hyphenate (l : list Ascii.ascii) : list Ascii.ascii :=
  match l with
  | c :: l' =>
      if is_sep c then
        match l' with
        | c' :: _ => if is_sep c' then hyphenate l' else "-"%char :: hyphenate l'
        | [] => ["-"%char]
        end
      else c :: hyphenate l'
  | [] => []
  end.

Definition ascii_slugify (value : string) : string :=
  let kept := filter (λ c, is_word c || is_sep c) (String.list_ascii_of_string value) in
  let stripped := reverse (lstrip (reverse (lstrip kept))) in
  String.string_of_list_ascii (hyphenate (lower <$> stripped)).

(** ** The methods *)

Section Methods.

(** [django.utils.text.slugify], imported as [default_slugify]. *)
Variable default_slugify : string → string.

(** Failures of the storage layer other than the constraints modelled
    below (outages, further constraints): what, if anything, a call raises
    in a given database state. *)
Variable fault : Op → Database → option exn.

(** The module-level constant computed at lines 27-33. *)
Variable LANGUAGE_CODES : list string.

(** The languages [active_translations()] selects: the active language
    and its fallbacks. *)
Variable active_languages : list string.

(** Lines 96-100. *)
Definition slugify (category : string) (i : option Z) : string :=
  let slug := default_slugify category in
  match i with
  | Some i => slug +:+ "_" +:+ pretty i
  | None => slug
  end.

(** Every storage call is logged, then may fail. *)
Definition storage_call (o : Op) : M State unit :=
  λ s, match fault o (db s) with
       | Some e => Raised e (log o s)
       | None => Returned tt (log o s)
       end.

(** Modelled from the spec: [Person.objects.get_or_create(user=u,
    defaults={'name': ...})[0]] of the author-profile store, which is not
    part of the module: the author record keyed by the user is fetched if
    there is one, else created. *)
Definition Person_get_or_create (u : User) : M State Z :=
  storage_call (GetOrCreatePerson (user_id u));;
  s ← get;
  let ps := persons (db s) in
  match filter (λ kp, person_user kp.2 = Some (user_id u)) (map_to_list ps) with
  | [] =>
      let p := fresh (dom ps) in
      let row := {| person_user := Some (user_id u);
                    person_name := first_name u +:+ " " +:+ last_name u |} in
      modify (with_db (set_persons (<[p := row]> ps)));;
      mret p
  | [kp] => mret kp.1
  | _ => raise MultipleObjectsReturned
  end.

(** Modelled from the spec: the queryset
    [Article.objects.language(lang).exclude(id=exclude)
      .values_list('translations__slug', flat=True)]
    of the translation framework, which is not part of the module: the
    existing slugs for that language, excluding the article's own id.  For
    every stored article but the excluded one it yields its slug in [lang],
    [None] where it has none.  [exclude(id=None)] excludes nothing. *)
Definition Article_slugs (lang : string) (exclude : option Z)
    : M State (list (option string)) :=
  storage_call (SelectSlugs lang exclude);;
  s ← get;
  mret ((λ kr, slug_of lang kr.2)
          <$> filter (λ kr, Some kr.1 ≠ exclude)
                (map_to_list (articles (db s)))).

(** The key a write of the instance goes to: its own, or an unused one
    for an instance that was never stored. *)
Definition article_key (s : State) : Z :=
  default (fresh (dom (articles (db s)))) (pk (self s)).

(** The state after the instance was written. *)
Definition write_article (date : Z) (s : State) : State :=
  let i := article_key s in
  with_self (set_pk i)
    (with_db (set_articles (store_article (articles (db s)) i (self s) date)) s).

(** Modelled from the spec: [super(Article, self).save()] of the storage
    layer, which is not part of the module: one atomic write of the master
    row and of the translation in the instance's language.  [publishing_date] is
    declared without [null=True] (line 81); (language_code, slug) is
    unique (line 68). *)
Definition Model_save : M State unit :=
  s ← get;
  storage_call (SaveArticle (self s));;
  match publishing_date (self s) with
  | None => raise (IntegrityError (NotNull "publishing_date"))
  | Some date =>
      if decide (slug_taken (articles (db s)) (article_key s)
                   (language_code (self s)) (slug (self s)))
      then raise (IntegrityError UniqueLanguageSlug)
      else modify (write_article date)
  end.

(** [self.name] *)
Definition getattr_name : M State string :=
  s ← get;
  match name (self s) with
  | Some n => mret n
  | None => raise (AttributeError "name")
  end.

(** Lines 135-141: [i = 1; while True: ...].  The loop leaves only by
    the [return] of line 140. *)
Fixpoint while_True (fuel : nat) (slugs : list string) (i : Z)
    : M State unit :=
  match fuel with
  | O => λ _, OutOfFuel
  | S fuel' =>
      n ← getattr_name;
      let slug := slugify n (Some i) in
      if bool_decide (slug ∉ slugs)
      then modify (with_self (set_slug slug));; Model_save
      else while_True fuel' slugs (i + 1)
  end.

(** Lines 129-141, the body of [for lang in LANGUAGE_CODES]. *)
Definition search_in (fuel : nat) (lang : string) : M State (option unit) :=
  s ← get;
  all_slugs ← Article_slugs lang (pk (self s));
  let slugs := colliding_slugs (slug (self s)) all_slugs in
  while_True fuel slugs 1;;
  mret (Some tt).

(** Lines 104-110. *)
Definition ensure_author : M State unit :=
  s ← get;
  match author (self s) with
  | None =>
      p ← Person_get_or_create (owner (self s));
      modify (with_self (set_author p))
  | Some _ => mret tt
  end.

(** Lines 120-141: [for lang in LANGUAGE_CODES: ...].  When the loop runs
    off the list the method reaches its end and returns [None]. *)
Definition suffix_search (fuel : nat) : M State unit :=
  for_in LANGUAGE_CODES (search_in fuel);;
  mret tt.

(** Lines 112-143: [# Ensure there is a unique slug.] *)
Definition ensure_slug (fuel : nat) : M State unit :=
  s ← get;
  if bool_decide (slug (self s) = "") then
    n ← getattr_name;
    modify (with_self (set_slug (slugify n None)));;
    try_except Model_save is_IntegrityError (suffix_search fuel)
  else Model_save.

(** Lines 102-143. *)
Definition save (fuel : nat) : M State unit :=
  ensure_author;;
  ensure_slug fuel.

(** The counter at which [while_True] leaves, as a function of the name
    read and of the collected slugs. *)
Fixpoint first_free (fuel : nat) (category : string) (slugs : list string)
    (i : Z) : option Z :=
  match fuel with
  | O => None
  | S fuel' =>
      if bool_decide (slugify category (Some i) ∉ slugs) then Some i
      else first_free fuel' category slugs (i + 1)
  end.

(** [m] keeps [I], whether it returns or raises. *)
Definition preserves {A} (I : State → Prop) (m : M State A) : Prop :=
  ∀ s, I s →
    match m s with
    | Returned _ s' => I s'
    | Raised _ s' => I s'
    | OutOfFuel => True
    end.

(** One save, from any instance, in any state of the trace; whether it
    returns or raises, the database goes on from where the save left it. *)
Definition save_step (d d' : Database) : Prop :=
  ∃ fuel a tr s',
    (save fuel {| db := d; self := a; trace := tr |} = Returned tt s'
     ∨ ∃ e, save fuel {| db := d; self := a; trace := tr |} = Raised e s')
    ∧ d' = db s'.

(** The databases sequential saves lead to, starting from [d0]. *)
Inductive reachable (d0 : Database) : Database → Prop :=
  | reachable_start : reachable d0 d0
  | reachable_save d d' :
      reachable d0 d → save_step d d' → reachable d0 d'.

(** Modelled from the spec: [Article.objects.active_translations()] of the
    translation framework, which is not part of the module: the articles
    that have at least one active translation, in the default ordering of
    line 86. *)
Definition active_translations (d : Database) : list (Z * ArticleRow) :=
  merge_sort newer_first
    (filter (λ kr, has_active_translation active_languages kr.2)
       (map_to_list (articles d))).

(** Lines 166-168.  A queryset refuses a negative slice bound. *)
Definition get_articles (plugin : LatestEntriesPlugin)
    : M Database (list (Z * ArticleRow)) :=
  d ← get;
  let articles := active_translations d in
  if bool_decide (latest_entries plugin < 0)
  then raise (AssertionError "Negative indexing is not supported.")
  else mret (take (Z.to_nat (latest_entries plugin)) articles).

(** ** Running the monad *)

Arguments slugify : simpl never.

Ltac run :=
  repeat (unfold mbind, M_bind, bind, mret, M_ret, ret, get, modify, raise,
            try_except; simpl).

(** ** The suffix loop *)

Lemma slugify_suffix_inj category i j :
  slugify category (Some i) = slugify category (Some j) → i = j.
Proof.
  unfold slugify. intros H.
  apply (inj (String.app _)) in H.
  apply (inj (String.app _)) in H.
  by apply (inj pretty) in H.
Qed.

Lemma first_free_ext fuel category l1 l2 i :
  (∀ k, i ≤ k →
     slugify category (Some k) ∈ l1 ↔ slugify category (Some k) ∈ l2) →
  first_free fuel category l1 i = first_free fuel category l2 i.
Proof.
  revert i. induction fuel as [|fuel IH]; intros i Hext; [done|].
  simpl. pose proof (Hext i ltac:(lia)) as Hi.
  rewrite (bool_decide_ext _ (slugify category (Some i) ∉ l2)) by tauto.
  case_bool_decide; [done|].
  apply IH. intros k Hk. apply Hext. lia.
Qed.

Lemma first_free_found fuel category slugs i :
  (length slugs < fuel)%nat →
  ∃ j, first_free fuel category slugs i = Some j
       ∧ i ≤ j ≤ i + Z.of_nat (length slugs).
Proof.
  revert slugs i. induction fuel as [|fuel IH]; intros slugs i Hlen; [lia|].
  simpl. case_bool_decide as Hin.
  { exists i. split; [done|lia]. }
  set (c := slugify category (Some i)) in *.
  set (rest := filter (λ v, v ≠ c) slugs).
  assert (length rest < length slugs)%nat as Hshort.
  { subst rest. clear -Hin. induction slugs as [|v l IHl]; [by inv Hin|].
    rewrite filter_cons. case_decide as Hv; simpl.
    - apply elem_of_cons in Hin as [->|Hin]; [done|].
      specialize (IHl Hin). lia.
    - pose proof (length_filter (λ v, v ≠ c) l). lia. }
  destruct (IH rest (i + 1) ltac:(lia)) as (j & Hj & Hbounds).
  exists j. split; [|lia].
  rewrite <- Hj. apply first_free_ext. intros k Hk.
  subst rest. rewrite list_elem_of_filter. split; [|tauto].
  intros Hk'. split; [|done]. intros Heq. subst c.
  apply slugify_suffix_inj in Heq. lia.
Qed.

Lemma first_free_spec fuel category slugs i j :
  first_free fuel category slugs i = Some j →
  i ≤ j
  ∧ (slugify category (Some j) ∉ slugs)
  ∧ ∀ k, i ≤ k < j → slugify category (Some k) ∈ slugs.
Proof.
  revert i. induction fuel as [|fuel IH]; intros i; [done|].
  simpl. case_bool_decide as Hin.
  - intros [= <-]. split; [lia|]. split; [done|]. intros k ?. lia.
  - intros Hj. destruct (IH _ Hj) as (Hle & Hfree & Hbelow).
    split; [lia|]. split; [done|]. intros k Hk.
    destruct (decide (k = i)) as [->|]; [done|].
    apply Hbelow. lia.
Qed.

Lemma first_free_mono fuel fuel' category slugs i j :
  first_free fuel category slugs i = Some j → (fuel ≤ fuel')%nat →
  first_free fuel' category slugs i = Some j.
Proof.
  revert fuel' i. induction fuel as [|fuel IH]; intros fuel' i; [done|].
  destruct fuel' as [|fuel']; [lia|]. simpl.
  case_bool_decide; [done|]. intros Hj ?. apply IH; [done|lia].
Qed.

(** ** The preservation calculus *)

Lemma preserves_ret {A} I (a : A) : preserves I (mret a).
Proof. intros s Hs. exact Hs. Qed.

Lemma preserves_raise {A} I e : preserves I (raise (A:=A) e).
Proof. intros s Hs. exact Hs. Qed.

Lemma preserves_bind {A B} I (m : M State A) (k : A → M State B) :
  preserves I m → (∀ a, preserves I (k a)) → preserves I (m ≫= k).
Proof.
  intros Hm Hk s Hs. specialize (Hm s Hs). run.
  destruct (m s) as [a s'| |]; [|done..]. by apply Hk.
Qed.

Lemma preserves_get {A} I (k : State → M State A) :
  (∀ s, preserves I (k s)) → preserves I (get ≫= k).
Proof. intros Hk s Hs. run. by apply Hk. Qed.

Lemma preserves_modify I (f : State → State) :
  (∀ s, I s → I (f s)) → preserves I (modify f).
Proof. intros Hf s Hs. by apply Hf. Qed.

Lemma preserves_try_except {A} I (m rest : M State A) handles :
  preserves I m → preserves I rest → preserves I (try_except m handles rest).
Proof.
  intros Hm Hrest s Hs. specialize (Hm s Hs). unfold try_except.
  destruct (m s) as [a s'|e s'|]; [done| |done].
  destruct (handles e); [by apply Hrest|done].
Qed.

Lemma preserves_for_in {A X} I (xs : list X) (body : X → M State (option A)) :
  (∀ x, preserves I (body x)) → preserves I (for_in xs body).
Proof.
  intros Hbody. induction xs as [|x xs IH]; [apply preserves_ret|].
  simpl. apply preserves_bind; [done|].
  intros [v|]; [apply preserves_ret|done].
Qed.

Lemma preserves_storage_call I o :
  (∀ s, I s → I (log o s)) → preserves I (storage_call o).
Proof.
  intros Hlog s Hs. unfold storage_call.
  destruct (fault o (db s)); by apply Hlog.
Qed.

(** ** The storage operations *)

Lemma Model_save_cases s :
  let s1 := log (SaveArticle (self s)) s in
  (∃ e, Model_save s = Raised e s1)
  ∨ (∃ date,
       fault (SaveArticle (self s)) (db s) = None
       ∧ publishing_date (self s) = Some date
       ∧ ¬ slug_taken (articles (db s)) (article_key s)
             (language_code (self s)) (slug (self s))
       ∧ Model_save s = Returned tt (write_article date s1)).
Proof.
  unfold Model_save, storage_call. run.
  destruct (fault _ _) as [e|] eqn:Hfault; [left; by eexists|]. simpl.
  destruct (publishing_date (self s)) as [date|]; [|left; by eexists].
  case_decide as Htaken; [left; by eexists|].
  right. exists date. by repeat split.
Qed.

Lemma Model_save_not_OutOfFuel s : Model_save s ≠ OutOfFuel.
Proof.
  destruct (Model_save_cases s) as [[e ->]|(date & _ & _ & _ & ->)]; done.
Qed.

Lemma Person_get_or_create_cases u s :
  let s1 := log (GetOrCreatePerson (user_id u)) s in
  let ps := persons (db s) in
  (∃ e, Person_get_or_create u s = Raised e s1)
  ∨ (∃ p x, ps !! p = Some x ∧ person_user x = Some (user_id u)
            ∧ Person_get_or_create u s = Returned p s1)
  ∨ (∃ p x, ps !! p = None ∧ person_user x = Some (user_id u)
            ∧ (∀ q y, ps !! q = Some y → person_user y ≠ Some (user_id u))
            ∧ Person_get_or_create u s
              = Returned p (with_db (set_persons (<[p := x]> ps)) s1)).
Proof.
  unfold Person_get_or_create, storage_call. run.
  destruct (fault _ _) as [e|]; [left; by eexists|]. simpl.
  destruct (filter _ _) as [|[p x] [|kp' l]] eqn:Hfilter; simpl.
  - right; right. eexists _, _. split; [|split; [|split]]; [| |..|done].
    + apply not_elem_of_dom, is_fresh.
    + done.
    + intros q y Hq Hy.
      assert ((q, y) ∈ filter (λ kp : Z * Person,
                                 person_user kp.2 = Some (user_id u))
                        (map_to_list (persons (db s)))) as Hin.
      { apply list_elem_of_filter. split; [done|].
        by apply elem_of_map_to_list. }
      rewrite Hfilter in Hin. by apply not_elem_of_nil in Hin.
  - right; left. exists p, x.
    assert ((p, x) ∈ filter (λ kp : Z * Person,
                               person_user kp.2 = Some (user_id u))
                      (map_to_list (persons (db s)))) as Hin.
    { rewrite Hfilter. apply list_elem_of_here. }
    apply list_elem_of_filter in Hin as [Hu Hin].
    apply elem_of_map_to_list in Hin. done.
  - left. by eexists.
Qed.

Lemma slug_of_store_article arts i a date lang :
  slug_of lang <$> store_article arts i a date !! i
  = Some (if decide (lang = language_code a) then Some (slug a)
          else arts !! i ≫= slug_of lang).
Proof.
  unfold store_article. rewrite lookup_insert_eq. simpl. f_equal.
  unfold slug_of at 1. simpl. case_decide as Hlang.
  - subst lang. by rewrite lookup_insert_eq.
  - rewrite lookup_insert_ne by done.
    destruct (arts !! i) as [r|]; simpl; [done|]. by rewrite lookup_empty.
Qed.

Lemma store_article_unique arts i a date :
  slugs_unique arts →
  ¬ slug_taken arts i (language_code a) (slug a) →
  slugs_unique (store_article arts i a date).
Proof.
  intros Huniq Hfree lang j1 j2 r1 r2 v Hr1 Hr2 Hv1 Hv2.
  assert (∀ j r, j ≠ i → store_article arts i a date !! j = Some r →
                 slug_of lang r = Some v →
                 ∀ r', arts !! i = Some r' → slug_of lang r' = Some v →
                       False) as Hother.
  { intros j r Hj Hr Hv r' Hr' Hv'.
    unfold store_article in Hr. rewrite lookup_insert_ne in Hr by done.
    apply Hj. symmetry. by eapply (Huniq lang i j r' r v). }
  assert (∀ j r, j ≠ i → store_article arts i a date !! j = Some r →
                 slug_of lang r = Some v →
                 ∀ r0, store_article arts i a date !! i = Some r0 →
                       slug_of lang r0 = Some v → False) as Hclash.
  { intros j r Hj Hr Hv r0 Hr0 Hv0.
    pose proof (slug_of_store_article arts i a date lang) as Hnew.
    rewrite Hr0 in Hnew. simpl in Hnew. rewrite Hv0 in Hnew.
    injection Hnew as Hnew. case_decide as Hlang.
    - injection Hnew as ->. subst lang. apply Hfree.
      unfold store_article in Hr. rewrite lookup_insert_ne in Hr by done.
      apply map_Exists_lookup. by exists j, r.
    - destruct (arts !! i) as [r'|] eqn:Hr'; [|done]. simpl in Hnew.
      by eapply (Hother j r Hj Hr Hv r'). }
  destruct (decide (j1 = i)) as [->|H1], (decide (j2 = i)) as [->|H2];
    [done| | |].
  - exfalso. by eapply (Hclash j2 r2).
  - exfalso. by eapply (Hclash j1 r1).
  - unfold store_article in Hr1, Hr2.
    rewrite lookup_insert_ne in Hr1 by done.
    rewrite lookup_insert_ne in Hr2 by done.
    by eapply Huniq.
Qed.

Lemma Model_save_unique :
  preserves (λ s, slugs_unique (articles (db s))) Model_save.
Proof.
  intros s Hs.
  destruct (Model_save_cases s) as [[e ->]|(date & _ & _ & Hfree & ->)];
    [done|].
  simpl. by apply store_article_unique.
Qed.

Lemma Model_save_persons ps :
  preserves (λ s, persons (db s) = ps) Model_save.
Proof.
  intros s Hs.
  destruct (Model_save_cases s) as [[e ->]|(date & _ & _ & _ & ->)]; done.
Qed.

Lemma Person_get_or_create_articles (J : gmap Z ArticleRow → Prop) u :
  preserves (λ s, J (articles (db s))) (Person_get_or_create u).
Proof.
  intros s Hs.
  destruct (Person_get_or_create_cases u s)
    as [[e ->]|[(p & x & _ & _ & ->)|(p & x & _ & _ & _ & ->)]]; done.
Qed.

Lemma Person_get_or_create_one_per_user u :
  preserves (λ s, one_person_per_user (persons (db s)))
    (Person_get_or_create u).
Proof.
  intros s Hs.
  destruct (Person_get_or_create_cases u s)
    as [[e ->]|[(p & x & _ & _ & ->)|(p & x & Hp & Hx & Hnone & ->)]];
    [done..|].
  simpl. intros q1 q2 y1 y2 w Hy1 Hy2 Hw1 Hw2.
  destruct (decide (q1 = p)) as [->|H1], (decide (q2 = p)) as [->|H2];
    [done| | |].
  - rewrite lookup_insert_eq in Hy1. rewrite lookup_insert_ne in Hy2 by done.
    injection Hy1 as <-. exfalso. apply (Hnone q2 y2 Hy2). congruence.
  - rewrite lookup_insert_eq in Hy2. rewrite lookup_insert_ne in Hy1 by done.
    injection Hy2 as <-. exfalso. apply (Hnone q1 y1 Hy1). congruence.
  - rewrite lookup_insert_ne in Hy1 by done.
    rewrite lookup_insert_ne in Hy2 by done.
    by eapply Hs.
Qed.

(** ** The structure of [save] *)

Lemma getattr_name_Some s n :
  name (self s) = Some n → getattr_name s = Returned n s.
Proof. intros H. unfold getattr_name. run. by rewrite H. Qed.

Lemma getattr_name_None s :
  name (self s) = None → getattr_name s = Raised (AttributeError "name") s.
Proof. intros H. unfold getattr_name. run. by rewrite H. Qed.

Lemma while_True_first_free fuel slugs i s n :
  name (self s) = Some n →
  while_True fuel slugs i s
  = match first_free fuel n slugs i with
    | Some j => Model_save (with_self (set_slug (slugify n (Some j))) s)
    | None => OutOfFuel
    end.
Proof.
  intros Hn. revert i. induction fuel as [|fuel IH]; intros i; [done|].
  simpl. unfold mbind at 1, M_bind at 1, bind at 1.
  rewrite (getattr_name_Some s n Hn).
  case_bool_decide; [done|]. apply IH.
Qed.

Lemma ensure_slug_preset fuel s :
  slug (self s) ≠ "" → ensure_slug fuel s = Model_save s.
Proof.
  intros H. unfold ensure_slug. run. by rewrite bool_decide_eq_false_2.
Qed.

Lemma ensure_slug_no_name fuel s :
  slug (self s) = "" → name (self s) = None →
  ensure_slug fuel s = Raised (AttributeError "name") s.
Proof.
  intros Hslug Hname. unfold ensure_slug. run.
  rewrite bool_decide_eq_true_2 by done.
  by rewrite (getattr_name_None s Hname).
Qed.

Lemma ensure_slug_allocate fuel s n :
  slug (self s) = "" → name (self s) = Some n →
  ensure_slug fuel s
  = try_except Model_save is_IntegrityError (suffix_search fuel)
      (with_self (set_slug (slugify n None)) s).
Proof.
  intros Hslug Hname. unfold ensure_slug. run.
  rewrite bool_decide_eq_true_2 by done.
  by rewrite (getattr_name_Some s n Hname).
Qed.

Lemma search_in_returns_Some fuel lang s s' r :
  search_in fuel lang s = Returned r s' → r = Some tt.
Proof.
  unfold search_in. run.
  destruct (Article_slugs _ _ _) as [all s1| |]; [|done..].
  destruct (while_True _ _ _ _) as [[] s2| |]; [|done..]. congruence.
Qed.

(** The loop over [LANGUAGE_CODES] never reaches a second language. *)
Lemma suffix_search_first_language fuel lang rest s :
  LANGUAGE_CODES = lang :: rest →
  suffix_search fuel s = (search_in fuel lang;; mret tt) s.
Proof.
  intros Hcodes. unfold suffix_search. rewrite Hcodes. simpl. run.
  destruct (search_in fuel lang s) as [r s'| |] eqn:Hsearch; [|done..].
  by rewrite (search_in_returns_Some _ _ _ _ _ Hsearch).
Qed.

Lemma suffix_search_no_language fuel s :
  LANGUAGE_CODES = [] → suffix_search fuel s = Returned tt s.
Proof. intros Hcodes. unfold suffix_search. by rewrite Hcodes. Qed.

Lemma Article_slugs_cases lang exclude s :
  let s1 := log (SelectSlugs lang exclude) s in
  (∃ e, Article_slugs lang exclude s = Raised e s1)
  ∨ Article_slugs lang exclude s
    = Returned ((λ kr : Z * ArticleRow, slug_of lang kr.2)
                  <$> filter (λ kr : Z * ArticleRow, Some kr.1 ≠ exclude)
                        (map_to_list (articles (db s)))) s1.
Proof.
  unfold Article_slugs, storage_call. run.
  destruct (fault _ _) as [e|]; [left; by eexists|by right].
Qed.

Lemma search_in_first_free fuel lang s n :
  name (self s) = Some n →
  search_in fuel lang s
  = (all_slugs ← Article_slugs lang (pk (self s));
     match first_free fuel n (colliding_slugs (slug (self s)) all_slugs) 1 with
     | Some i =>
         modify (with_self (set_slug (slugify n (Some i))));;
         Model_save;;
         mret (Some tt)
     | None => λ _, OutOfFuel
     end) s.
Proof.
  intros Hn. unfold search_in. run.
  destruct (Article_slugs_cases lang (pk (self s)) s) as [[e ->]| ->];
    [done|].
  rewrite while_True_first_free with (n := n) by done.
  by destruct (first_free _ _ _ _).
Qed.

Lemma length_colliding_slugs base all_slugs :
  (length (colliding_slugs base all_slugs) ≤ length all_slugs)%nat.
Proof.
  unfold colliding_slugs. induction all_slugs as [|o l IH]; [done|].
  change (omap (collides base) (o :: l))
    with (match collides base o with
          | Some v => v :: omap (collides base) l
          | None => omap (collides base) l
          end).
  destruct (collides base o); simpl; lia.
Qed.

Lemma Article_slugs_length lang exclude s all_slugs s' :
  Article_slugs lang exclude s = Returned all_slugs s' →
  (length all_slugs ≤ size (articles (db s)))%nat.
Proof.
  destruct (Article_slugs_cases lang exclude s) as [[e ->]| ->]; [done|].
  intros [= <- _]. rewrite length_fmap.
  etrans; [apply length_filter|]. by rewrite length_map_to_list.
Qed.

Lemma ensure_author_cases s :
  let u := user_id (owner (self s)) in
  let s1 := log (GetOrCreatePerson u) s in
  (is_Some (author (self s)) ∧ ensure_author s = Returned tt s)
  ∨ (author (self s) = None ∧ ∃ e, ensure_author s = Raised e s1)
  ∨ (author (self s) = None
     ∧ ∃ p x ps,
         ps !! p = Some x ∧ person_user x = Some u
         ∧ (ps = persons (db s)
            ∨ ps = <[p := x]> (persons (db s))
              ∧ ∀ q y, persons (db s) !! q = Some y → person_user y ≠ Some u)
         ∧ ensure_author s
           = Returned tt (with_self (set_author p)
                            (with_db (set_persons ps) s1))).
Proof.
  unfold ensure_author. run.
  destruct (author (self s)) as [p|] eqn:Hauthor; [left; eauto|right].
  destruct (Person_get_or_create_cases (owner (self s)) s)
    as [[e ->]|[(p & x & Hp & Hx & ->)|(p & x & Hp & Hx & Hnone & ->)]].
  - left. eauto.
  - right. split; [done|]. exists p, x, (persons (db s)).
    split; [done|]. split; [done|]. split; [by left|].
    unfold with_db, set_persons. simpl.
    by destruct s as [[ps arts] a tr].
  - right. split; [done|]. exists p, x, (<[p:=x]> (persons (db s))).
    split; [by rewrite lookup_insert_eq|]. split; [done|].
    split; [by right|done].
Qed.

Lemma save_unfold fuel s :
  save fuel s
  = match ensure_author s with
    | Returned _ sa => ensure_slug fuel sa
    | Raised e sa => Raised e sa
    | OutOfFuel => OutOfFuel
    end.
Proof. done. Qed.

Lemma ensure_author_Returned s sa :
  ensure_author s = Returned tt sa →
  is_Some (author (self sa))
  ∧ slug (self sa) = slug (self s) ∧ name (self sa) = name (self s)
  ∧ pk (self sa) = pk (self s) ∧ owner (self sa) = owner (self s)
  ∧ language_code (self sa) = language_code (self s)
  ∧ title (self sa) = title (self s)
  ∧ publishing_date (self sa) = publishing_date (self s)
  ∧ articles (db sa) = articles (db s)
  ∧ ∃ ops, trace sa = trace s ++ ops
           ∧ Forall (λ o, ∃ u, o = GetOrCreatePerson u) ops.
Proof.
  destruct (ensure_author_cases s)
    as [[Hsome ->]|[(_ & e & ->)|(_ & p & x & ps & _ & _ & _ & ->)]];
    [|done|]; intros [= <-]; simpl.
  - repeat split; try done. exists []. by rewrite app_nil_r.
  - repeat split; try done. eexists [_]. split; [done|].
    repeat constructor. by eexists.
Qed.

Lemma Model_save_Returned s s' :
  Model_save s = Returned tt s' →
  ∃ date,
    publishing_date (self s) = Some date
    ∧ ¬ slug_taken (articles (db s)) (article_key s)
          (language_code (self s)) (slug (self s))
    ∧ s' = write_article date (log (SaveArticle (self s)) s).
Proof.
  destruct (Model_save_cases s) as [[e ->]|(date & _ & Hd & Hfree & ->)];
    [done|].
  intros [= <-]. by exists date.
Qed.

Lemma Model_save_Raised s e s' :
  Model_save s = Raised e s' → s' = log (SaveArticle (self s)) s.
Proof.
  destruct (Model_save_cases s) as [[e' ->]|(date & _ & _ & _ & ->)];
    [|done].
  by intros [= _ <-].
Qed.

(** What was stored when [Model_save] returns. *)
Lemma Model_save_stored s s' :
  Model_save s = Returned tt s' →
  ∃ i r,
    self s' = set_pk i (self s)
    ∧ articles (db s') !! i = Some r
    ∧ row_author r = author (self s)
    ∧ slug_of (language_code (self s)) r = Some (slug (self s))
    ∧ persons (db s') = persons (db s)
    ∧ trace s' = trace s ++ [SaveArticle (self s)].
Proof.
  intros (date & _ & _ & ->)%Model_save_Returned.
  eexists _, _. simpl. split; [done|].
  unfold store_article. rewrite lookup_insert_eq. split; [done|]. simpl.
  split; [done|]. split; [|done].
  unfold slug_of. simpl. by rewrite lookup_insert_eq.
Qed.

(** How a save that returns got there. *)
Lemma ensure_slug_Returned fuel s s' :
  ensure_slug fuel s = Returned tt s' →
  (slug (self s) ≠ "" ∧ Model_save s = Returned tt s')
  ∨ (slug (self s) = ""
     ∧ ∃ n, name (self s) = Some n
       ∧ let s0 := with_self (set_slug (slugify n None)) s in
         Model_save s0 = Returned tt s'
         ∨ ∃ c, Model_save s0
                = Raised (IntegrityError c) (log (SaveArticle (self s0)) s0)
              ∧ suffix_search fuel (log (SaveArticle (self s0)) s0)
                = Returned tt s').
Proof.
  intros H. destruct (decide (slug (self s) = "")) as [Hslug|Hslug].
  2:{ rewrite ensure_slug_preset in H by done. by left. }
  right. split; [done|].
  destruct (name (self s)) as [n|] eqn:Hname.
  2:{ by rewrite ensure_slug_no_name in H. }
  exists n. split; [done|]. simpl.
  rewrite (ensure_slug_allocate fuel s n) in H by done.
  unfold try_except in H.
  destruct (Model_save _) as [[] s1|e s1|] eqn:Hdirect; [left; congruence| |done].
  pose proof (Model_save_Raised _ _ _ Hdirect) as ->.
  destruct e; try done. right. by eexists.
Qed.

Lemma suffix_search_Returned fuel s n s' :
  name (self s) = Some n →
  suffix_search fuel s = Returned tt s' →
  (LANGUAGE_CODES = [] ∧ s' = s)
  ∨ ∃ lang rest i,
      LANGUAGE_CODES = lang :: rest
      ∧ fault (SelectSlugs lang (pk (self s))) (db s) = None
      ∧ first_free fuel n
          (colliding_slugs (slug (self s))
             ((λ kr : Z * ArticleRow, slug_of lang kr.2)
                <$> filter (λ kr : Z * ArticleRow, Some kr.1 ≠ pk (self s))
                      (map_to_list (articles (db s))))) 1 = Some i
      ∧ Model_save (with_self (set_slug (slugify n (Some i)))
                      (log (SelectSlugs lang (pk (self s))) s))
        = Returned tt s'.
Proof.
  intros Hname. destruct LANGUAGE_CODES as [|lang rest] eqn:Hcodes.
  { rewrite suffix_search_no_language by done. intros [= <-]. by left. }
  rewrite (suffix_search_first_language fuel lang rest) by done.
  intros Hsearch. right. exists lang, rest. revert Hsearch.
  unfold mbind at 1, M_bind at 1, bind at 1.
  rewrite (search_in_first_free fuel lang s n Hname).
  unfold Article_slugs, storage_call. run.
  destruct (fault _ _) as [e|] eqn:Hfault; [done|]. simpl.
  destruct (first_free _ _ _ _) as [i|] eqn:Hfree; [|done].
  destruct (Model_save _) as [[] s2| |] eqn:Hsave; [|done..].
  intros [= <-]. by exists i.
Qed.

(** ** Termination of the suffix search *)

(** C8: a save that has entered the suffix search (so [self.name] was
    read at line 114) leaves the [while True] loop for every finite list
    of fetched slugs: there is a counter [i >= 1], the least one, whose
    candidate is not in the list, and with more fuel than the list is
    long the loop stops there and goes on to save with that candidate. *)
Theorem while_True_terminates s n slugs :
  name (self s) = Some n →
  ∃ i, 1 ≤ i ≤ 1 + Z.of_nat (length slugs)
       ∧ (slugify n (Some i) ∉ slugs)
       ∧ (∀ k, 1 ≤ k < i → slugify n (Some k) ∈ slugs)
       ∧ ∀ fuel, (length slugs < fuel)%nat →
           while_True fuel slugs 1 s
           = Model_save (with_self (set_slug (slugify n (Some i))) s).
Proof.
  intros Hname.
  destruct (first_free_found (S (length slugs)) n slugs 1 ltac:(lia))
    as (i & Hi & Hbounds).
  destruct (first_free_spec _ _ _ _ _ Hi) as (_ & Hfree & Hbelow).
  exists i. repeat split; [lia|lia|done|done|].
  intros fuel Hfuel. rewrite while_True_first_free with (n := n) by done.
  rewrite (first_free_mono _ fuel _ _ _ _ Hi); [done|lia].
Qed.

Lemma suffix_search_not_OutOfFuel fuel s n :
  name (self s) = Some n → (size (articles (db s)) < fuel)%nat →
  suffix_search fuel s ≠ OutOfFuel.
Proof.
  intros Hname Hfuel. destruct LANGUAGE_CODES as [|lang rest] eqn:Hcodes.
  { by rewrite suffix_search_no_language. }
  rewrite (suffix_search_first_language fuel lang rest) by done.
  unfold mbind at 1, M_bind at 1, bind at 1.
  rewrite (search_in_first_free fuel lang s n Hname).
  unfold mbind at 1, M_bind at 1, bind at 1.
  destruct (Article_slugs _ _ _) as [all s1| |] eqn:Hquery; [|done|].
  2:{ by destruct (Article_slugs_cases lang (pk (self s)) s) as [[e He]|He];
        rewrite He in Hquery. }
  pose proof (Article_slugs_length _ _ _ _ _ Hquery) as Hlen.
  pose proof (length_colliding_slugs (slug (self s)) all) as Hlen'.
  destruct (first_free_found fuel n (colliding_slugs (slug (self s)) all) 1
              ltac:(lia)) as (i & -> & _).
  run. pose proof (Model_save_not_OutOfFuel
                     (with_self (set_slug (slugify n (Some i))) s1)).
  by destruct (Model_save _).
Qed.

(** X2: With more fuel than there are stored articles, [save] comes to an
    end: it returns or raises. *)
Lemma save_not_OutOfFuel fuel s :
  (size (articles (db s)) < fuel)%nat → save fuel s ≠ OutOfFuel.
Proof.
  intros Hfuel. rewrite save_unfold.
  destruct (ensure_author s) as [[] sa|e sa|] eqn:Hauthor; [|done|].
  2:{ by destruct (ensure_author_cases s)
        as [[_ H]|[(_ & e & H)|(_ & p & x & ps & _ & _ & _ & H)]];
        rewrite H in Hauthor. }
  apply ensure_author_Returned in Hauthor
    as (_ & _ & _ & _ & _ & _ & _ & _ & Harts & _).
  destruct (decide (slug (self sa) = "")) as [Hslug|Hslug].
  2:{ rewrite ensure_slug_preset by done. apply Model_save_not_OutOfFuel. }
  destruct (name (self sa)) as [n|] eqn:Hname.
  2:{ by rewrite ensure_slug_no_name. }
  rewrite (ensure_slug_allocate fuel sa n) by done. unfold try_except.
  destruct (Model_save _) as [[] s1|e s1|] eqn:Hdirect; [done| |].
  2:{ by apply Model_save_not_OutOfFuel in Hdirect. }
  destruct (is_IntegrityError e); [|done].
  apply Model_save_Raised in Hdirect as ->.
  apply suffix_search_not_OutOfFuel with (n := n); [done|].
  simpl. by rewrite Harts.
Qed.

(** ** The collision filter *)

Lemma elem_of_colliding_slugs base all_slugs v :
  v ∈ colliding_slugs base all_slugs
  ↔ Some v ∈ all_slugs ∧ v ≠ "" ∧ startswith v base = true.
Proof.
  unfold colliding_slugs. rewrite list_elem_of_omap. split.
  - intros ([w|] & Hin & Hw); simpl in Hw; [|done].
    destruct (bool_decide (w ≠ "")) eqn:Hne; [|done].
    destruct (startswith w base) eqn:Hpre; [|done].
    simpl in Hw. injection Hw as ->.
    by apply bool_decide_eq_true_1 in Hne.
  - intros (Hin & Hne & Hpre). exists (Some v). split; [done|]. simpl.
    by rewrite bool_decide_eq_true_2, Hpre.
Qed.

(** C10: the slugs the search collects are exactly the fetched values
    that are present, non-empty and start with the base.  A missing or
    empty value adds nothing to the list, so it rejects no candidate;
    with an empty base every non-empty fetched slug is collected. *)
Theorem colliding_slugs_spec base all_slugs :
  (∀ v, v ∈ colliding_slugs base all_slugs
        ↔ Some v ∈ all_slugs ∧ v ≠ "" ∧ startswith v base = true)
  ∧ (∀ v, v ∈ colliding_slugs "" all_slugs ↔ Some v ∈ all_slugs ∧ v ≠ "")
  ∧ colliding_slugs base (None :: all_slugs) = colliding_slugs base all_slugs
  ∧ colliding_slugs base (Some "" :: all_slugs)
    = colliding_slugs base all_slugs
  ∧ ∀ fuel category,
      first_free fuel category (colliding_slugs base (None :: all_slugs)) 1
      = first_free fuel category (colliding_slugs base all_slugs) 1
      ∧ first_free fuel category
          (colliding_slugs base (Some "" :: all_slugs)) 1
        = first_free fuel category (colliding_slugs base all_slugs) 1.
Proof.
  split; [apply elem_of_colliding_slugs|]. split.
  { intros v. rewrite elem_of_colliding_slugs. unfold startswith.
    assert (String.prefix "" v = true) as -> by by destruct v.
    tauto. }
  by repeat split.
Qed.

(** ** Invariants of the tables along [save] *)

Lemma getattr_name_preserves I : preserves I getattr_name.
Proof.
  intros s Hs. unfold getattr_name. run. by destruct (name (self s)).
Qed.

Lemma ensure_slug_preserves I fuel :
  (∀ o s, I s → I (log o s)) →
  (∀ v s, I s → I (with_self (set_slug v) s)) →
  preserves I Model_save →
  preserves I (ensure_slug fuel).
Proof.
  intros Hlog Hslug Hsave.
  assert (∀ slugs i, preserves I (while_True fuel slugs i)) as Hloop.
  { induction fuel as [|fuel' IH]; intros slugs i; [done|]. simpl.
    apply preserves_bind; [apply getattr_name_preserves|]. intros n.
    case_bool_decide; [|apply IH].
    apply preserves_bind; [|done]. apply preserves_modify, Hslug. }
  unfold ensure_slug. apply preserves_get. intros s.
  case_bool_decide; [|done].
  apply preserves_bind; [apply getattr_name_preserves|]. intros n.
  apply preserves_bind; [apply preserves_modify, Hslug|]. intros _.
  apply preserves_try_except; [done|]. unfold suffix_search.
  apply preserves_bind; [|intros; apply preserves_ret].
  apply preserves_for_in. intros lang. unfold search_in.
  apply preserves_get. intros s1.
  apply preserves_bind.
  { unfold Article_slugs.
    apply preserves_bind; [apply preserves_storage_call, Hlog|]. intros _.
    apply preserves_get. intros s2. apply preserves_ret. }
  intros all_slugs.
  apply preserves_bind; [apply Hloop|intros; apply preserves_ret].
Qed.

Lemma ensure_slug_preserves_db (J : Database → Prop) fuel :
  preserves (λ s, J (db s)) Model_save →
  preserves (λ s, J (db s)) (ensure_slug fuel).
Proof. intros Hsave. by apply ensure_slug_preserves. Qed.

Lemma ensure_author_preserves_db (J : Database → Prop) :
  (∀ u, preserves (λ s, J (db s)) (Person_get_or_create u)) →
  preserves (λ s, J (db s)) ensure_author.
Proof.
  intros Hperson. unfold ensure_author. apply preserves_get. intros s.
  destruct (author (self s)); [apply preserves_ret|].
  apply preserves_bind; [done|]. intros p. by apply preserves_modify.
Qed.

Lemma save_preserves_db (J : Database → Prop) fuel :
  preserves (λ s, J (db s)) Model_save →
  (∀ u, preserves (λ s, J (db s)) (Person_get_or_create u)) →
  preserves (λ s, J (db s)) (save fuel).
Proof.
  intros Hsave Hperson. unfold save. apply preserves_bind.
  - by apply ensure_author_preserves_db.
  - intros _. by apply ensure_slug_preserves_db.
Qed.

Lemma save_step_invariant (J : Database → Prop) d d' :
  (∀ fuel, preserves (λ s, J (db s)) (save fuel)) →
  J d → save_step d d' → J d'.
Proof.
  intros Hsave Hd (fuel & a & tr & s' & Hstep & ->).
  specialize (Hsave fuel {| db := d; self := a; trace := tr |} Hd).
  destruct Hstep as [Hstep|[e Hstep]]; by rewrite Hstep in Hsave.
Qed.

(** C4: starting from a database whose slugs are unique per language,
    after any number of saves run one after the other, two different
    articles that both have a translation in a language never have the
    same slug in it. *)
Theorem sequential_saves_keep_slugs_unique d0 d :
  slugs_unique (articles d0) → reachable d0 d →
  ∀ lang i j ri rj vi vj,
    i ≠ j →
    articles d !! i = Some ri → articles d !! j = Some rj →
    slug_of lang ri = Some vi → slug_of lang rj = Some vj →
    vi ≠ vj.
Proof.
  intros Hstart Hreach.
  assert (slugs_unique (articles d)) as Huniq.
  { induction Hreach as [|d d' _ IH Hstep]; [done|].
    apply (save_step_invariant (λ d, slugs_unique (articles d)) d d');
      [|done..].
    intros fuel.
    apply (save_preserves_db (λ d, slugs_unique (articles d)));
      [apply Model_save_unique|].
    intros u. apply (Person_get_or_create_articles slugs_unique). }
  intros lang i j ri rj vi vj Hij Hi Hj Hvi Hvj ->.
  apply Hij. by eapply (Huniq lang i j ri rj vj).
Qed.

(** ** A slug that is already set *)

(** C5: when the slug is set, [save] is the author step followed by the
    plain model save.  The slug of the instance is not changed, [name] is
    not read, no slug query is made, the only write carries the slug as
    it was, and when the save returns that slug is what is stored. *)
Theorem save_preset_slug fuel s :
  slug (self s) ≠ "" →
  save fuel s = (ensure_author;; Model_save) s
  ∧ ∀ s',
      (save fuel s = Returned tt s' ∨ ∃ e, save fuel s = Raised e s') →
      slug (self s') = slug (self s)
      ∧ (∃ ops, trace s' = trace s ++ ops
                ∧ Forall (leaves_slug (slug (self s))) ops)
      ∧ (save fuel s = Returned tt s' →
         ∃ i r, pk (self s') = Some i
                ∧ articles (db s') !! i = Some r
                ∧ slug_of (language_code (self s)) r = Some (slug (self s))).
Proof.
  intros Hslug.
  assert (save fuel s = (ensure_author;; Model_save) s) as Heq.
  { rewrite save_unfold. run.
    destruct (ensure_author s) as [[] sa| |] eqn:Hauthor; [|done..].
    apply ensure_author_Returned in Hauthor as (_ & Hsa & _).
    apply ensure_slug_preset. by rewrite Hsa. }
  split; [done|]. intros s'. rewrite Heq. clear Heq. run.
  destruct (ensure_author s) as [[] sa|e sa|] eqn:Hauthor.
  - apply ensure_author_Returned in Hauthor
      as (_ & Hsa & _ & _ & _ & Hlang & _ & _ & _ & ops & Hops & Hpersons).
    assert (Forall (leaves_slug (slug (self s))) ops) as Hops'.
    { eapply Forall_impl; [exact Hpersons|]. by intros o [u ->]. }
    destruct (Model_save sa) as [[] s1|e s1|] eqn:Hsave.
    + intros [[= <-]|[e [=]]].
      destruct (Model_save_stored _ _ Hsave)
        as (i & r & Hself & Hr & _ & Hv & _ & Htrace).
      split; [by rewrite Hself|]. split.
      * exists (ops ++ [SaveArticle (self sa)]).
        rewrite Htrace, Hops, <- (assoc_L (++)). split; [done|].
        apply Forall_app. split; [done|]. by repeat constructor.
      * intros _. exists i, r. rewrite Hself. split; [done|].
        split; [done|]. by rewrite <- Hlang, <- Hsa.
    + intros [[=]|[e' [= _ <-]]].
      apply Model_save_Raised in Hsave as ->. simpl.
      split; [done|]. split; [|done].
      exists (ops ++ [SaveArticle (self sa)]).
      rewrite Hops, <- (assoc_L (++)). split; [done|].
      apply Forall_app. split; [done|]. by repeat constructor.
    + by intros [[=]|[e' [=]]].
  - intros [[=]|[e' [= _ <-]]].
    destruct (ensure_author_cases s)
      as [[_ H]|[(_ & e'' & H)|(_ & p & x & ps & _ & _ & _ & H)]];
      rewrite H in Hauthor; [done| |done].
    injection Hauthor as _ <-. simpl. split; [done|]. split; [|done].
    eexists [_]. split; [done|]. by repeat constructor.
  - by intros [[=]|[e' [=]]].
Qed.

(** ** The author *)

Lemma Model_save_author p ps :
  preserves (λ s, author (self s) = Some p ∧ persons (db s) = ps)
    Model_save.
Proof.
  intros s Hs.
  destruct (Model_save_cases s) as [[e ->]|(date & _ & _ & _ & ->)]; done.
Qed.

Lemma ensure_slug_author fuel p ps :
  preserves (λ s, author (self s) = Some p ∧ persons (db s) = ps)
    (ensure_slug fuel).
Proof.
  apply ensure_slug_preserves; [done..|apply Model_save_author].
Qed.

Lemma ensure_slug_stored_author fuel s s' :
  LANGUAGE_CODES ≠ [] →
  ensure_slug fuel s = Returned tt s' →
  ∃ i r, pk (self s') = Some i
         ∧ articles (db s') !! i = Some r
         ∧ row_author r = author (self s).
Proof.
  intros Hcodes
    [[_ Hsave]|(_ & n & Hname & [Hsave|(c & _ & Hsearch)])]%ensure_slug_Returned.
  - destruct (Model_save_stored _ _ Hsave) as (i & r & -> & Hr & Ha & _).
    by exists i, r.
  - destruct (Model_save_stored _ _ Hsave) as (i & r & -> & Hr & Ha & _).
    by exists i, r.
  - apply suffix_search_Returned with (n := n) in Hsearch; [|done].
    destruct Hsearch as [[Hnil _]|(lang & rest & i0 & _ & _ & _ & Hsave)];
      [done|].
    destruct (Model_save_stored _ _ Hsave) as (i & r & -> & Hr & Ha & _).
    by exists i, r.
Qed.

(** C6: when [save] returns, the instance has an author.  If it came
    without one, the author is a person row of the owning user, found or
    created by [get_or_create]; a person table with at most one row per
    user stays so; and saving the returned instance again leaves the
    person table as it is.  Unless the language list is empty, the row
    that was stored carries that author. *)
Theorem save_ensures_author fuel s s' :
  save fuel s = Returned tt s' →
  ∃ p,
    author (self s') = Some p
    ∧ (author (self s) = Some p
       ∨ author (self s) = None
         ∧ ∃ x, persons (db s') !! p = Some x
                ∧ person_user x = Some (user_id (owner (self s))))
    ∧ (one_person_per_user (persons (db s)) →
       one_person_per_user (persons (db s')))
    ∧ (∀ fuel' s'',
         (save fuel' s' = Returned tt s'' ∨ ∃ e, save fuel' s' = Raised e s'') →
         persons (db s'') = persons (db s'))
    ∧ (LANGUAGE_CODES ≠ [] →
       ∃ i r, pk (self s') = Some i
              ∧ articles (db s') !! i = Some r
              ∧ row_author r = Some p).
Proof.
  intros Hsave.
  assert (∃ sa p, ensure_author s = Returned tt sa
                  ∧ ensure_slug fuel sa = Returned tt s'
                  ∧ author (self sa) = Some p
                  ∧ (author (self s) = Some p
                     ∨ author (self s) = None
                       ∧ ∃ x, persons (db sa) !! p = Some x
                              ∧ person_user x
                                = Some (user_id (owner (self s)))))
    as (sa & p & Hauthor & Hslug & Hp & Horigin).
  { rewrite save_unfold in Hsave.
    destruct (ensure_author_cases s)
      as [[[p Hp] H]|[(_ & e & H)|(Hnone & p & x & ps & Hx & Hu & _ & H)]];
      rewrite H in Hsave; [|done|].
    - exists s, p. repeat split; [done..|by left].
    - eexists _, p. repeat split; [done..|]. right. split; [done|].
      by exists x. }
  pose proof (ensure_slug_author fuel p (persons (db sa)) sa
                ltac:(done)) as Hkeep.
  rewrite Hslug in Hkeep. destruct Hkeep as [Hp' Hps'].
  exists p. split; [done|]. split.
  { destruct Horigin as [?|[? ?]]; [by left|right]. by rewrite Hps'. }
  split.
  { intros Hone.
    pose proof (save_preserves_db (λ d, one_person_per_user (persons d)) fuel)
      as Hinv.
    specialize (Hinv ltac:(
      intros s0 Hs0; pose proof (Model_save_persons (persons (db s0)) s0 eq_refl) as Hm;
      destruct (Model_save s0); simpl in *; [by rewrite Hm..|done])).
    specialize (Hinv Person_get_or_create_one_per_user s Hone).
    by rewrite Hsave in Hinv. }
  split.
  { intros fuel' s'' Hagain. rewrite save_unfold in Hagain.
    destruct (ensure_author_cases s')
      as [[_ H]|[(Hnone & _)|(Hnone & _)]]; [|congruence..].
    rewrite H in Hagain.
    pose proof (ensure_slug_author fuel' p (persons (db s')) s'
                  ltac:(done)) as Hkeep.
    destruct Hagain as [Hagain|[e Hagain]]; rewrite Hagain in Hkeep;
      by destruct Hkeep. }
  intros Hcodes.
  destruct (ensure_slug_stored_author fuel sa s' Hcodes Hslug)
    as (i & r & Hi & Hr & Ha).
  exists i, r. by rewrite Ha, Hp.
Qed.

(** ** Which failures [save] handles *)

Lemma search_in_candidate fuel lang s n all_slugs s2 i :
  name (self s) = Some n →
  Article_slugs lang (pk (self s)) s = Returned all_slugs s2 →
  first_free fuel n (colliding_slugs (slug (self s)) all_slugs) 1 = Some i →
  (search_in fuel lang;; mret tt) s
  = Model_save (with_self (set_slug (slugify n (Some i))) s2).
Proof.
  intros Hname Hquery Hfree.
  unfold mbind at 1, M_bind at 1, bind at 1.
  rewrite (search_in_first_free fuel lang s n Hname).
  unfold mbind at 1, M_bind at 1, bind at 1. rewrite Hquery, Hfree. run.
  by destruct (Model_save _) as [[] s3| |].
Qed.

Lemma search_in_query_fails fuel lang s e s2 :
  Article_slugs lang (pk (self s)) s = Raised e s2 →
  (search_in fuel lang;; mret tt) s = Raised e s2.
Proof. intros Hquery. unfold search_in. run. by rewrite Hquery. Qed.

(** C3, as the code has it: [save] has one handler.  It is entered by an
    [IntegrityError] of the direct save with the unsuffixed slug, whichever
    constraint the error reports, and it leads to the suffix search.  An
    exception of any other class raised by that direct save, and every
    exception raised by the author step, by the slug query, by the save of
    a suffixed candidate or by the save of a slug that was already set, is
    the outcome of [save] as it was raised. *)
Theorem save_exception_flow fuel s :
  (∀ e sa, ensure_author s = Raised e sa → save fuel s = Raised e sa)
  ∧ ∀ sa,
      ensure_author s = Returned tt sa →
      (slug (self sa) ≠ "" → save fuel s = Model_save sa)
      ∧ ∀ n,
          slug (self sa) = "" → name (self sa) = Some n →
          let s0 := with_self (set_slug (slugify n None)) sa in
          let s1 := log (SaveArticle (self s0)) s0 in
          (∀ s2, Model_save s0 = Returned tt s2 → save fuel s = Returned tt s2)
          ∧ (∀ e, Model_save s0 = Raised e s1 → is_IntegrityError e = false →
                  save fuel s = Raised e s1)
          ∧ ∀ c,
              Model_save s0 = Raised (IntegrityError c) s1 →
              save fuel s = suffix_search fuel s1
              ∧ ∀ lang rest,
                  LANGUAGE_CODES = lang :: rest →
                  (∀ e s2,
                     Article_slugs lang (pk (self s1)) s1 = Raised e s2 →
                     save fuel s = Raised e s2)
                  ∧ (∀ all_slugs s2 i,
                       Article_slugs lang (pk (self s1)) s1
                       = Returned all_slugs s2 →
                       first_free fuel n
                         (colliding_slugs (slug (self s1)) all_slugs) 1
                       = Some i →
                       save fuel s
                       = Model_save
                           (with_self (set_slug (slugify n (Some i))) s2)).
Proof.
  split.
  { intros e sa Hauthor. by rewrite save_unfold, Hauthor. }
  intros sa Hauthor. rewrite save_unfold, Hauthor. split.
  { apply ensure_slug_preset. }
  intros n Hslug Hname s0 s1.
  rewrite (ensure_slug_allocate fuel sa n Hslug Hname). fold s0.
  unfold try_except. split; [by intros s2 ->|]. split.
  { by intros e -> ->. }
  intros c ->. simpl. split; [done|]. intros lang rest Hcodes.
  rewrite (suffix_search_first_language fuel lang rest s1 Hcodes). split.
  - intros e s2. apply (search_in_query_fails fuel lang s1).
  - intros all_slugs s2 i. by apply (search_in_candidate fuel lang s1 n).
Qed.

(** ** The latest-entries plugin *)

Lemma elem_of_active_translations d i r :
  (i, r) ∈ active_translations d
  ↔ articles d !! i = Some r ∧ has_active_translation active_languages r.
Proof.
  unfold active_translations.
  rewrite (merge_sort_Permutation newer_first), list_elem_of_filter.
  rewrite elem_of_map_to_list. simpl. tauto.
Qed.

Lemma active_translations_sorted d :
  StronglySorted newer_first (active_translations d).
Proof. apply (StronglySorted_merge_sort newer_first). Qed.

(** C7, as the code has it.  For a count that is not negative,
    [get_articles] returns the first [N] rows of the active translations in
    the default ordering: at most [N] articles, each of them stored and with
    a translation in an active language, latest [publishing_date] first and
    none of them older than an article left out; the database is as it was.
    For every negative count the slice is refused: [get_articles] raises
    and returns no list, the database again as it was.  The count of a
    plugin created with the defaults is 5. *)
Theorem get_articles_spec plugin d :
  (0 ≤ latest_entries plugin →
   ∃ l,
     get_articles plugin d = Returned l d
     ∧ l = take (Z.to_nat (latest_entries plugin)) (active_translations d)
     ∧ Z.of_nat (length l) ≤ latest_entries plugin
     ∧ (∀ i r, (i, r) ∈ l →
          articles d !! i = Some r
          ∧ has_active_translation active_languages r)
     ∧ StronglySorted newer_first l
     ∧ (∀ x y, x ∈ l →
          y ∈ drop (Z.to_nat (latest_entries plugin)) (active_translations d) →
          newer_first x y))
  ∧ (latest_entries plugin < 0 →
     get_articles plugin d
     = Raised (AssertionError "Negative indexing is not supported.") d)
  ∧ latest_entries LatestEntriesPlugin_default = 5.
Proof.
  split; [|split; [|done]].
  - intros Hcount. eexists. split.
    { unfold get_articles. run. by rewrite bool_decide_eq_false_2 by lia. }
    set (n := Z.to_nat (latest_entries plugin)).
    pose proof (active_translations_sorted d) as Hsorted.
    rewrite <- (take_drop n (active_translations d)) in Hsorted.
    split; [done|]. split.
    { rewrite length_take. lia. }
    split.
    { intros i r Hin. apply elem_of_active_translations.
      by eapply subseteq_take. }
    split; [by eapply StronglySorted_app_1_l|].
    intros x y Hx Hy. by eapply StronglySorted_app_1_elem_of.
  - intros Hcount. unfold get_articles. run.
    by rewrite bool_decide_eq_true_2.
Qed.

(** ** The slug the search allocates *)

Lemma startswith_append base x : startswith (base +:+ x) base = true.
Proof.
  unfold startswith. induction base as [|c base IH]; simpl.
  - by destruct x.
  - destruct (Ascii.ascii_dec c c); [exact IH|done].
Qed.

Lemma candidate_collides n i all_slugs :
  slugify n (Some i) ∈ colliding_slugs (slugify n None) all_slugs
  ↔ Some (slugify n (Some i)) ∈ all_slugs.
Proof.
  rewrite elem_of_colliding_slugs. split; [tauto|]. intros Hin.
  split; [done|].
  unfold slugify. split; [|apply startswith_append].
  by destruct (default_slugify n).
Qed.

Lemma elem_of_fetched arts exclude lang v :
  Some v ∈ ((λ kr : Z * ArticleRow, slug_of lang kr.2)
              <$> filter (λ kr : Z * ArticleRow, Some kr.1 ≠ exclude)
                    (map_to_list arts))
  ↔ held_by_other arts exclude lang v.
Proof.
  rewrite list_elem_of_fmap. unfold held_by_other. split.
  - intros ([j r] & Hv & Hin). apply list_elem_of_filter in Hin as [Hj Hin].
    apply elem_of_map_to_list in Hin. by exists j, r.
  - intros (j & r & Hj & Hr & Hv). exists (j, r). split; [done|].
    apply list_elem_of_filter. split; [done|].
    by apply elem_of_map_to_list.
Qed.

(** X4: When the direct save is rejected and the save still returns, the
    slug it stored is [base_i] for the least [i >= 1] that no other
    article holds in the first language of [LANGUAGE_CODES]. *)
Lemma save_allocates_least_suffix fuel s sa n c lang rest s' :
  ensure_author s = Returned tt sa →
  slug (self sa) = "" → name (self sa) = Some n →
  Model_save (with_self (set_slug (slugify n None)) sa)
  = Raised (IntegrityError c)
      (log (SaveArticle (set_slug (slugify n None) (self sa)))
         (with_self (set_slug (slugify n None)) sa)) →
  LANGUAGE_CODES = lang :: rest →
  save fuel s = Returned tt s' →
  ∃ i,
    1 ≤ i
    ∧ slug (self s') = slugify n (Some i)
    ∧ (∀ k, 1 ≤ k < i →
         held_by_other (articles (db sa)) (pk (self sa)) lang
           (slugify n (Some k)))
    ∧ ¬ held_by_other (articles (db sa)) (pk (self sa)) lang
          (slugify n (Some i))
    ∧ ∃ j r, pk (self s') = Some j
             ∧ articles (db s') !! j = Some r
             ∧ slug_of (language_code (self sa)) r
               = Some (slugify n (Some i)).
Proof.
  intros Hauthor Hslug Hname Hdirect Hcodes Hsave.
  rewrite save_unfold, Hauthor in Hsave.
  rewrite (ensure_slug_allocate fuel sa n Hslug Hname) in Hsave.
  unfold try_except in Hsave. rewrite Hdirect in Hsave. simpl in Hsave.
  apply suffix_search_Returned with (n := n) in Hsave; [|done].
  destruct Hsave as [[Hnil _]|(lang' & rest' & i & Hcodes' & _ & Hfree & Hsave)];
    [congruence|].
  rewrite Hcodes in Hcodes'. injection Hcodes' as <- <-. simpl in Hfree.
  apply first_free_spec in Hfree as (Hi & Hfree & Hbelow).
  rewrite candidate_collides, elem_of_fetched in Hfree.
  exists i. split; [done|].
  destruct (Model_save_stored _ _ Hsave) as (j & r & -> & Hr & _ & Hv & _).
  split; [done|]. split.
  { intros k Hk. specialize (Hbelow k Hk).
    by rewrite candidate_collides, elem_of_fetched in Hbelow. }
  split; [done|]. by exists j, r.
Qed.

(** ** The candidates of [slugify] *)

Lemma append_nonempty_ne base x : x ≠ "" → base +:+ x ≠ base.
Proof.
  intros Hx Heq. apply Hx. induction base as [|c base IH]; [done|].
  apply IH. by injection Heq.
Qed.

(** X1: Lines 96-100: a slug with a counter starts with the slug without one,
    is longer than it, is never empty, and two counters give the same slug
    only if they are equal. *)
Theorem slugify_candidates category i :
  startswith (slugify category (Some i)) (slugify category None) = true
  ∧ slugify category (Some i) ≠ slugify category None
  ∧ slugify category (Some i) ≠ ""
  ∧ ∀ j, slugify category (Some i) = slugify category (Some j) ↔ i = j.
Proof.
  split; [apply startswith_append|]. split.
  { unfold slugify. by apply append_nonempty_ne. }
  split.
  { unfold slugify. by destruct (default_slugify category). }
  intros j. split; [apply slugify_suffix_inj|by intros ->].
Qed.

(** ** What a save does to the trace, the instance and the person table *)

Lemma preserves_final {A} I (m : M State A) s s' :
  preserves I m → I s → final_state (m s) = Some s' → I s'.
Proof.
  intros Hm Hs Hfinal. specialize (Hm s Hs).
  destruct (m s) as [a s1|e s1|]; simpl in Hfinal; by simplify_eq.
Qed.

Lemma Model_save_final s s' :
  final_state (Model_save s) = Some s' →
  trace s' = trace s ++ [SaveArticle (self s)].
Proof.
  destruct (Model_save_cases s) as [[e ->]|(date & _ & _ & _ & ->)];
    by intros [= <-].
Qed.

Lemma ensure_slug_storage_calls fuel s s' :
  final_state (ensure_slug fuel s) = Some s' →
  ∃ ops,
    trace s' = trace s ++ ops
    ∧ (ops = []
       ∨ ∃ a0,
           ops = [SaveArticle a0]
           ∨ ∃ lang,
               head LANGUAGE_CODES = Some lang ∧ slug (self s) = ""
               ∧ (ops = [SaveArticle a0; SelectSlugs lang (pk (self s))]
                  ∨ ∃ v, ops = [SaveArticle a0;
                                SelectSlugs lang (pk (self s));
                                SaveArticle (set_slug v a0)])).
Proof.
  destruct (decide (slug (self s) = "")) as [Hslug|Hslug].
  2:{ rewrite ensure_slug_preset by done. intros Hfinal%Model_save_final.
      eexists. split; [done|]. right. eexists. by left. }
  destruct (name (self s)) as [n|] eqn:Hname.
  2:{ rewrite ensure_slug_no_name by done. intros [= <-].
      exists []. split; [by rewrite app_nil_r|by left]. }
  rewrite (ensure_slug_allocate fuel s n) by done.
  set (s0 := with_self (set_slug (slugify n None)) s).
  unfold try_except.
  destruct (Model_save s0) as [[] s1|e s1|] eqn:Hdirect; [| |done].
  { intros [= <-].
    pose proof (Model_save_final s0 s1 ltac:(by rewrite Hdirect)) as Htrace.
    eexists. split; [exact Htrace|]. right. eexists. by left. }
  pose proof (Model_save_Raised _ _ _ Hdirect) as ->.
  destruct (is_IntegrityError e).
  2:{ intros [= <-]. eexists. split; [done|]. right. eexists. by left. }
  destruct LANGUAGE_CODES as [|lang rest] eqn:Hcodes.
  { rewrite suffix_search_no_language by done. intros [= <-].
    eexists. split; [done|]. right. eexists. by left. }
  rewrite (suffix_search_first_language fuel lang rest) by done.
  unfold mbind at 1, M_bind at 1, bind at 1.
  set (s1 := log (SaveArticle (self s0)) s0).
  rewrite (search_in_first_free fuel lang s1 n Hname).
  unfold mbind at 1, M_bind at 1, bind at 1.
  destruct (Article_slugs_cases lang (pk (self s1)) s1) as [[e' ->]| ->].
  { intros [= <-]. eexists. split; [simpl; by rewrite <- (assoc_L (++))|].
    right. exists (self s0). right. exists lang. split; [done|].
    split; [done|]. by left. }
  destruct (first_free _ _ _ _) as [i|]; [|done]. run.
  set (s2 := with_self (set_slug (slugify n (Some i)))
               (log (SelectSlugs lang (pk (self s))) s1)).
  intros Hfinal.
  assert (final_state (Model_save s2) = Some s') as Hfinal'.
  { by destruct (Model_save s2) as [[] s3|e' s3|]. }
  apply Model_save_final in Hfinal'. rewrite Hfinal'. simpl.
  eexists. split; [by rewrite <- !(assoc_L (++))|].
  right. exists (self s0). right. exists lang. split; [done|].
  split; [done|]. right. by exists (slugify n (Some i)).
Qed.

(** X6: Lines 102-143: the storage calls of one save, in order.  At most one
    author lookup, made only for an instance without author; then at most
    one write, or a write followed by one slug query, or a write, one slug
    query and a second write.  The query is made only when the slug was
    empty, for the first language of [LANGUAGE_CODES] and excluding the
    instance's own key; the second write differs from the first in the
    slug only. *)
Theorem save_storage_calls fuel s s' :
  final_state (save fuel s) = Some s' →
  ∃ pre ops,
    trace s' = trace s ++ pre ++ ops
    ∧ (pre = []
       ∨ author (self s) = None
         ∧ pre = [GetOrCreatePerson (user_id (owner (self s)))])
    ∧ (ops = []
       ∨ ∃ a0,
           ops = [SaveArticle a0]
           ∨ ∃ lang,
               head LANGUAGE_CODES = Some lang ∧ slug (self s) = ""
               ∧ (ops = [SaveArticle a0; SelectSlugs lang (pk (self s))]
                  ∨ ∃ v, ops = [SaveArticle a0;
                                SelectSlugs lang (pk (self s));
                                SaveArticle (set_slug v a0)])).
Proof.
  rewrite save_unfold.
  destruct (ensure_author_cases s)
    as [[_ H]|[(Hnone & e & H)|(Hnone & p & x & ps & _ & _ & _ & H)]];
    rewrite H.
  - intros (ops & Htrace & Hops)%ensure_slug_storage_calls.
    exists [], ops. split; [done|]. split; [by left|done].
  - intros [= <-]. eexists [_], []. split; [done|]. split; [by right|by left].
  - intros (ops & Htrace & Hops)%ensure_slug_storage_calls.
    eexists [_], ops. split; [by rewrite Htrace, (assoc_L (++))|].
    split; [by right|done].
Qed.

Lemma ensure_slug_instance_frame fuel a :
  preserves
    (λ s, title (self s) = title a
          ∧ language_code (self s) = language_code a
          ∧ owner (self s) = owner a
          ∧ publishing_date (self s) = publishing_date a
          ∧ name (self s) = name a
          ∧ author (self s) = author a
          ∧ (pk (self s) = pk a ∨ pk a = None))
    (ensure_slug fuel).
Proof.
  apply ensure_slug_preserves; [done..|].
  intros s (Ht & Hl & Ho & Hd & Hn & Ha & Hpk).
  destruct (Model_save_cases s) as [[e ->]|(date & _ & _ & _ & ->)];
    [done|].
  simpl. repeat split; try done.
  destruct (pk a) as [i|] eqn:Hpka; [|by right].
  destruct Hpk as [Hpk|Hpk]; [left|done].
  unfold article_key. simpl. by rewrite Hpk.
Qed.

(** X7: Lines 102-143: of the fields of the instance, a save assigns [author],
    [slug] and the key only.  Whether it returns or raises, title, language,
    owner, publishing date and [name] are as before; an author that was set
    is kept, and so is a key that was set. *)
Theorem save_instance_frame fuel s s' :
  final_state (save fuel s) = Some s' →
  title (self s') = title (self s)
  ∧ language_code (self s') = language_code (self s)
  ∧ owner (self s') = owner (self s)
  ∧ publishing_date (self s') = publishing_date (self s)
  ∧ name (self s') = name (self s)
  ∧ (author (self s') = author (self s) ∨ author (self s) = None)
  ∧ (pk (self s') = pk (self s) ∨ pk (self s) = None).
Proof.
  rewrite save_unfold.
  destruct (ensure_author s) as [[] sa|e sa|] eqn:Hauthor; [| |done].
  - intros Hfinal.
    pose proof (preserves_final _ _ sa s' (ensure_slug_instance_frame fuel (self sa))
                  ltac:(by repeat split; try left) Hfinal)
      as (Ht & Hl & Ho & Hd & Hn & Ha & Hpk).
    destruct (ensure_author_cases s)
      as [[_ H]|[(_ & e & H)|(Hnone & p & x & ps & _ & _ & _ & H)]];
      rewrite H in Hauthor; [|done|]; injection Hauthor as <-;
      simpl in *; repeat split; try done; by eauto.
  - intros [= <-].
    destruct (ensure_author_cases s)
      as [[_ H]|[(_ & e' & H)|(_ & p & x & ps & _ & _ & _ & H)]];
      rewrite H in Hauthor; [done| |done].
    injection Hauthor as _ <-. simpl. repeat split; by eauto.
Qed.

Lemma Person_get_or_create_row u s p s' :
  Person_get_or_create u s = Returned p s' →
  persons (db s') = persons (db s)
  ∨ persons (db s) !! p = None
    ∧ (∀ q y, persons (db s) !! q = Some y →
              person_user y ≠ Some (user_id u))
    ∧ persons (db s')
      = <[p := {| person_user := Some (user_id u);
                  person_name := first_name u +:+ " " +:+ last_name u |}]>
          (persons (db s)).
Proof.
  unfold Person_get_or_create, storage_call. run.
  destruct (fault _ _) as [e|]; [done|]. simpl.
  destruct (filter _ _) as [|[p0 x] [|kp' l]] eqn:Hfilter; simpl; [| |done].
  - intros [= <- <-]. right. simpl. split; [|split; [|done]].
    + apply not_elem_of_dom, is_fresh.
    + intros q y Hq Hy.
      assert ((q, y) ∈ filter (λ kp : Z * Person,
                                 person_user kp.2 = Some (user_id u))
                        (map_to_list (persons (db s)))) as Hin.
      { apply list_elem_of_filter. split; [done|].
        by apply elem_of_map_to_list. }
      rewrite Hfilter in Hin. by apply not_elem_of_nil in Hin.
  - intros [= <- <-]. by left.
Qed.

(** X8: Lines 104-110: what a save does to the person table, whether it
    returns or raises.  Either nothing; or, for an instance without author
    whose owner had no person yet, exactly one new row under an unused key:
    the owner as user and "first_name last_name" as name, which is then the
    author of the instance. *)
Theorem save_person_effect fuel s s' :
  final_state (save fuel s) = Some s' →
  persons (db s') = persons (db s)
  ∨ author (self s) = None
    ∧ ∃ p,
        persons (db s) !! p = None
        ∧ (∀ q y, persons (db s) !! q = Some y →
                  person_user y ≠ Some (user_id (owner (self s))))
        ∧ persons (db s')
          = <[p := {| person_user := Some (user_id (owner (self s)));
                      person_name := first_name (owner (self s)) +:+ " "
                                     +:+ last_name (owner (self s)) |}]>
              (persons (db s))
        ∧ author (self s') = Some p.
Proof.
  rewrite save_unfold. unfold ensure_author. run.
  destruct (author (self s)) as [p0|] eqn:Hauthor.
  { intros Hfinal. left.
    pose proof (preserves_final _ _ s s'
                  (ensure_slug_author fuel p0 (persons (db s)))
                  ltac:(done) Hfinal) as [_ Hps]. done. }
  destruct (Person_get_or_create (owner (self s)) s) as [p s1|e s1|] eqn:Hperson;
    [| |done].
  2:{ intros [= <-]. left.
      by destruct (Person_get_or_create_cases (owner (self s)) s)
        as [[e' H]|[(p & x & _ & _ & H)|(p & x & _ & _ & _ & H)]];
        rewrite H in Hperson; simplify_eq. }
  intros Hfinal.
  pose proof (preserves_final _ _ (with_self (set_author p) s1) s'
                (ensure_slug_author fuel p (persons (db s1)))
                ltac:(done) Hfinal) as [Hp Hps].
  destruct (Person_get_or_create_row _ _ _ _ Hperson)
    as [Hsame|(Hfresh & Hnone & Hnew)].
  - left. by rewrite Hps.
  - right. split; [done|]. exists p. by rewrite Hps.
Qed.

(** ** What a returned save has stored *)

Lemma Model_save_ok s date :
  fault (SaveArticle (self s)) (db s) = None →
  publishing_date (self s) = Some date →
  ¬ slug_taken (articles (db s)) (article_key s)
      (language_code (self s)) (slug (self s)) →
  Model_save s
  = Returned tt (write_article date (log (SaveArticle (self s)) s)).
Proof.
  intros Hfault Hdate Hfree. unfold Model_save, storage_call. run.
  rewrite Hfault. simpl. rewrite Hdate. by rewrite decide_False.
Qed.

Lemma lookup_store_article arts i a date :
  store_article arts i a date !! i
  = Some {| row_author := author a;
            row_owner := user_id (owner a);
            row_publishing_date := date;
            row_translations :=
              <[language_code a := {| t_title := title a; t_slug := slug a |}]>
                (from_option row_translations ∅ (arts !! i)) |}.
Proof. unfold store_article. by rewrite lookup_insert_eq. Qed.

Lemma ensure_slug_Returned_written fuel s s' :
  LANGUAGE_CODES ≠ [] →
  ensure_slug fuel s = Returned tt s' →
  ∃ sx,
    Model_save sx = Returned tt s'
    ∧ db sx = db s
    ∧ ∃ v, self sx = set_slug v (self s) ∧ (slug (self s) = "" ∨ v = slug (self s)).
Proof.
  intros Hcodes
    [[Hslug Hsave]|(Hslug & n & Hname & [Hsave|(c & _ & Hsearch)])]%ensure_slug_Returned.
  - exists s. split; [done|]. split; [done|]. exists (slug (self s)).
    split; [by destruct (self s)|by right].
  - eexists. split; [exact Hsave|]. split; [done|]. eexists.
    split; [done|by left].
  - apply suffix_search_Returned with (n := n) in Hsearch; [|done].
    destruct Hsearch as [[Hnil _]|(lang & rest & i & _ & _ & _ & Hsave)];
      [done|].
    eexists. split; [exact Hsave|]. split; [done|]. eexists.
    split; [|by left]. simpl. by destruct (self s).
Qed.

(** X9: Lines 102-143, with the language list of lines 27-33: when the module
    was initialised and a save returns, the article is stored under the key
    the instance now carries, and the stored row holds what the instance
    holds: the title and the slug of the instance in its language, its
    owner, its author and its publishing date.  Other articles are as they
    were. *)
Theorem save_after_init_stores settings settings' fuel s s' :
  init_LANGUAGE_CODES settings = Returned LANGUAGE_CODES settings' →
  save fuel s = Returned tt s' →
  ∃ i r,
    pk (self s') = Some i
    ∧ articles (db s') !! i = Some r
    ∧ row_translations r !! language_code (self s)
      = Some {| t_title := title (self s); t_slug := slug (self s') |}
    ∧ row_owner r = user_id (owner (self s))
    ∧ row_author r = author (self s')
    ∧ Some (row_publishing_date r) = publishing_date (self s)
    ∧ ∀ j, j ≠ i → articles (db s') !! j = articles (db s) !! j.
Proof.
  intros Hinit Hsave.
  assert (LANGUAGE_CODES ≠ []) as Hcodes.
  { revert Hinit.
    unfold init_LANGUAGE_CODES, mbind, M_bind, bind, get, mret, M_ret, ret,
      raise.
    destruct (LANGUAGES settings) as [[|l ls]|]; [|by intros [= <- _]|done].
    destruct (LANGUAGE settings) as [[|c code]|]; [done| |done].
    by intros [= <- _]. }
  rewrite save_unfold in Hsave.
  destruct (ensure_author s) as [[] sa|e sa|] eqn:Hauthor; [|done..].
  apply ensure_author_Returned in Hauthor
    as (_ & Hslug & _ & _ & Howner & Hlang & Htitle & Hdate & Harts & _).
  destruct (ensure_slug_Returned_written fuel sa s' Hcodes Hsave)
    as (sx & Hwrite & Hdb & v & Hself & _).
  apply Model_save_Returned in Hwrite as (date & Hdate' & _ & ->).
  exists (article_key (log (SaveArticle (self sx)) sx)). eexists.
  simpl. split; [done|]. split; [apply lookup_store_article|]. simpl.
  rewrite Hself in *. simpl in *. rewrite <- Hlang, <- Htitle, <- Howner.
  split; [by rewrite lookup_insert_eq|]. split; [done|]. split; [done|].
  split; [congruence|].
  intros j Hj. unfold store_article. rewrite lookup_insert_ne by done.
  by rewrite Hdb, Harts.
Qed.

(** X5: Lines 113-118: take an instance with an empty slug, with [name]
    and with a publishing date, at a moment when the storage layer does not
    fail the write.  When no other article holds the unsuffixed slug in the
    language of the instance, the direct save stores it: the save returns,
    the slug is [slugify(name)] without counter, and the one storage call
    after the author step is that write, so no slug query is made.  The row
    of the instance itself does not count, so a stored article whose slug
    was cleared gets its slug back. *)
Theorem save_stores_free_base fuel s sa n date :
  ensure_author s = Returned tt sa →
  slug (self sa) = "" → name (self sa) = Some n →
  publishing_date (self sa) = Some date →
  fault (SaveArticle (set_slug (slugify n None) (self sa))) (db sa) = None →
  ¬ slug_taken (articles (db sa)) (article_key sa)
      (language_code (self sa)) (slugify n None) →
  ∃ s',
    save fuel s = Returned tt s'
    ∧ slug (self s') = slugify n None
    ∧ trace s' = trace sa ++ [SaveArticle (set_slug (slugify n None) (self sa))]
    ∧ ∃ r, pk (self s') = Some (article_key sa)
           ∧ articles (db s') !! article_key sa = Some r
           ∧ slug_of (language_code (self sa)) r = Some (slugify n None).
Proof.
  intros Hauthor Hslug Hname Hdate Hfault Hfree.
  rewrite save_unfold, Hauthor.
  rewrite (ensure_slug_allocate fuel sa n Hslug Hname). unfold try_except.
  rewrite (Model_save_ok _ date) by done.
  eexists. split; [done|]. simpl. split; [done|]. split; [done|].
  eexists. split; [done|]. split; [apply lookup_store_article|].
  unfold slug_of. simpl. by rewrite lookup_insert_eq.
Qed.

(** ** Saving again *)

Lemma store_article_again arts i a date :
  store_article (store_article arts i a date) i (set_pk i a) date
  = store_article arts i a date.
Proof.
  unfold store_article at 1. rewrite lookup_store_article. simpl.
  rewrite insert_insert_eq. unfold store_article. by rewrite insert_insert_eq.
Qed.

Lemma slug_taken_store_article arts i a date lang v :
  slug_taken (store_article arts i a date) i lang v ↔ slug_taken arts i lang v.
Proof.
  unfold slug_taken. rewrite !map_Exists_lookup.
  split; intros (j & r & Hr & Hj & Hv); exists j, r;
    (split; [|done]); unfold store_article in *.
  - by rewrite lookup_insert_ne in Hr.
  - by rewrite lookup_insert_ne.
Qed.

(** X11: Lines 102-143: saving the instance a save has just returned, when its
    slug is not empty and the storage layer does not fail, returns again and
    changes neither the database nor the instance: the slug is not
    allocated a second time. *)
Theorem save_again_changes_nothing fuel fuel' s s' :
  LANGUAGE_CODES ≠ [] →
  save fuel s = Returned tt s' →
  slug (self s') ≠ "" →
  fault (SaveArticle (self s')) (db s') = None →
  ∃ s'',
    save fuel' s' = Returned tt s''
    ∧ db s'' = db s'
    ∧ self s'' = self s'
    ∧ trace s'' = trace s' ++ [SaveArticle (self s')].
Proof.
  intros Hcodes Hsave Hslug Hfault.
  rewrite save_unfold in Hsave.
  destruct (ensure_author s) as [[] sa|e sa|] eqn:Hauthor; [|done..].
  apply ensure_author_Returned in Hauthor as ([p Hp] & _).
  destruct (ensure_slug_Returned_written fuel sa s' Hcodes Hsave)
    as (sx & Hwrite & Hdb & v & Hself & _).
  apply Model_save_Returned in Hwrite as (date & Hdate & Hfree & ->).
  set (s1 := log (SaveArticle (self sx)) sx) in *.
  assert (author (self (write_article date s1)) = Some p) as Hp'.
  { simpl. by rewrite Hself. }
  rewrite save_unfold.
  destruct (ensure_author_cases (write_article date s1))
    as [[_ ->]|[(Hnone & _)|(Hnone & _)]]; [|congruence..].
  rewrite ensure_slug_preset by done.
  rewrite (Model_save_ok _ date); [| done | done |].
  - eexists. split; [done|]. split; [|done].
    unfold write_article, with_self, with_db, set_articles. simpl.
    f_equal. apply store_article_again.
  - simpl. by rewrite slug_taken_store_article.
Qed.

(** ** More on the latest entries *)

(** X12: Lines 166-168: for a count that is not negative, [get_articles]
    returns as many articles as the count allows and there are: the smaller
    of the two numbers.  When the count is not below the number of articles
    with an active translation, all of them are returned; a count of 0
    returns none. *)
Theorem get_articles_count plugin d :
  0 ≤ latest_entries plugin →
  ∃ l,
    get_articles plugin d = Returned l d
    ∧ length l
      = (Z.to_nat (latest_entries plugin)
           `min` length (active_translations d))%nat
    ∧ ((length (active_translations d) ≤ Z.to_nat (latest_entries plugin))%nat →
       ∀ i r, articles d !! i = Some r →
              has_active_translation active_languages r → (i, r) ∈ l)
    ∧ (latest_entries plugin = 0 → l = []).
Proof.
  intros Hcount. eexists. split.
  { unfold get_articles. run. by rewrite bool_decide_eq_false_2 by lia. }
  split; [apply length_take|]. split.
  - intros Hall i r Hr Hactive. rewrite take_ge by done.
    by apply elem_of_active_translations.
  - by intros ->.
Qed.

Lemma NoDup_fmap_elem_inj {A B} (f : A → B) (l : list A) x y :
  NoDup (f <$> l) → x ∈ l → y ∈ l → f x = f y → x = y.
Proof.
  induction l as [|z l IH]; [by intros _ ?%elem_of_nil|].
  rewrite fmap_cons, NoDup_cons, !elem_of_cons.
  intros [Hz Hl] [->|Hx] [->|Hy] Hxy; [done| | |by apply IH].
  - exfalso. apply Hz. rewrite Hxy. by apply list_elem_of_fmap_2.
  - exfalso. apply Hz. rewrite <- Hxy. by apply list_elem_of_fmap_2.
Qed.

(** X13: Lines 86 and 166-168: when the articles with an active translation
    have pairwise different publishing dates, the ordering of line 86 leaves
    the database no choice.  Take any arrangement [l] of exactly those
    articles that is descending in the publishing date: for a count [N >= 0]
    [get_articles] returns the first [N] of [l]; and for a larger count it
    returns a list that the first [N] of [l] are a prefix of. *)
Theorem get_articles_any_descending_order plugin d l :
  0 ≤ latest_entries plugin →
  NoDup ((λ kr : Z * ArticleRow, row_publishing_date kr.2) <$> l) →
  l ≡ₚ filter (λ kr : Z * ArticleRow,
                 has_active_translation active_languages kr.2)
         (map_to_list (articles d)) →
  StronglySorted newer_first l →
  get_articles plugin d
  = Returned (take (Z.to_nat (latest_entries plugin)) l) d
  ∧ ∀ q, latest_entries plugin ≤ latest_entries q →
         ∃ lq, get_articles q d = Returned lq d
               ∧ take (Z.to_nat (latest_entries plugin)) l `prefix_of` lq.
Proof.
  intros Hcount Hdates Hperm Hsorted.
  assert (active_translations d = l) as Horder.
  { symmetry. apply (StronglySorted_unique_strong newer_first);
      [|done|apply active_translations_sorted|].
    - intros x y Hx Hy Hxy Hyx.
      apply (NoDup_fmap_elem_inj
               (λ kr : Z * ArticleRow, row_publishing_date kr.2) l);
        [done|done| |].
      + revert Hy. unfold active_translations.
        by rewrite (merge_sort_Permutation newer_first), Hperm.
      + unfold newer_first in *. lia.
    - unfold active_translations.
      by rewrite (merge_sort_Permutation newer_first). }
  split.
  - unfold get_articles. run. rewrite bool_decide_eq_false_2 by lia.
    by rewrite Horder.
  - intros q Hq. eexists. split.
    { unfold get_articles. run. by rewrite bool_decide_eq_false_2 by lia. }
    rewrite Horder.
    set (n := Z.to_nat (latest_entries plugin)).
    set (m := Z.to_nat (latest_entries q)).
    replace n with (n `min` m)%nat by lia.
    rewrite <- take_take. apply prefix_take.
Qed.

(** ** An instance without [name] *)

(** X15: A save that has to allocate a slug reads [self.name] before it writes
    anything: on an instance that has no such attribute it raises and
    stores no article. *)
Lemma save_needs_name fuel s sa :
  ensure_author s = Returned tt sa →
  slug (self sa) = "" → name (self sa) = None →
  save fuel s = Raised (AttributeError "name") sa.
Proof.
  intros Hauthor Hslug Hname. rewrite save_unfold, Hauthor.
  by apply ensure_slug_no_name.
Qed.

End Methods.


(** ** Module initialisation *)


(** The fallback of lines 29-30 at work: [LANGUAGES] is empty and the
    single [LANGUAGE] gives the codes. *)
Lemma init_with_single_LANGUAGE :
  init_LANGUAGE_CODES {| LANGUAGES := Some []; LANGUAGE := Some "en" |}
  = Returned ["en"] {| LANGUAGES := Some []; LANGUAGE := Some "en" |}.
Proof. reflexivity. Qed.

(** ** The scenario of the specification *)

(** C1: "my-story" exists in English and a new article titled "My Story"
    is saved in English without a slug.  The instance has the declared
    fields only, so there is no [name] to read at line 114: whatever
    [slugify] and the language list are, the save raises [AttributeError]
    after the author step and stores nothing; no "my-story_1" appears. *)
Theorem my_story_save_raises default_slugify LANGUAGE_CODES fuel :
  save default_slugify no_fault LANGUAGE_CODES fuel
    (fresh_state db_my_story (new_article "en" "My Story" (Some 200)))
  = Raised (AttributeError "name")
      {| db := db_my_story;
         self := set_author 1 (new_article "en" "My Story" (Some 200));
         trace := [GetOrCreatePerson 7] |}.
Proof. reflexivity. Qed.

(** What the scenario gives once [name] holds the title on each instance
    and English is the first configured language: the second article is
    stored as "my-story_1", the third as "my-story_2". *)
Lemma my_story_scenario_with_name :
  ∃ s1 s2,
    save ascii_slugify no_fault ["en"] 3
      (fresh_state db_my_story (named_story "en" (Some 200)))
    = Returned tt s1
    ∧ slug (self s1) = "my-story_1"
    ∧ slug_of "en" <$> articles (db s1) !! 2 = Some (Some "my-story_1")
    ∧ save ascii_slugify no_fault ["en"] 3
        (fresh_state (db s1) (named_story "en" (Some 300)))
      = Returned tt s2
    ∧ slug (self s2) = "my-story_2"
    ∧ slug_of "en" <$> articles (db s2) !! 3 = Some (Some "my-story_2").
Proof.
  eexists _, _. split; [vm_compute; reflexivity|].
  split; [reflexivity|]. split; [vm_compute; reflexivity|].
  split; [vm_compute; reflexivity|].
  split; [reflexivity|]. vm_compute. reflexivity.
Qed.

(** C2: two inputs on which the allocator does not do what the claim says.
    On an instance with the declared fields only the base is never computed,
    the save raises at [self.name].  With [name] assigned and German being
    saved while English comes first in [LANGUAGE_CODES], the slugs consulted
    are the English ones: "my-story_1" is free in German, yet the article is
    stored as "my-story_2". *)
Theorem allocator_reads_name_and_first_language :
  (∀ default_slugify LANGUAGE_CODES fuel,
     save default_slugify no_fault LANGUAGE_CODES fuel
       (fresh_state db_two_languages (new_article "de" "My Story" (Some 200)))
     = Raised (AttributeError "name")
         {| db := db_two_languages;
            self := set_author 1 (new_article "de" "My Story" (Some 200));
            trace := [GetOrCreatePerson 7] |})
  ∧ ¬ held_by_other (articles db_two_languages) None "de" "my-story_1"
  ∧ ∃ s',
      save ascii_slugify no_fault ["en"; "de"] 3
        (fresh_state db_two_languages (named_story "de" (Some 200)))
      = Returned tt s'
      ∧ slug (self s') = "my-story_2"
      ∧ slug_of "de" <$> articles (db s') !! 3 = Some (Some "my-story_2")
      ∧ trace s'
        = [GetOrCreatePerson 7;
           SaveArticle (set_slug "my-story"
                          (set_author 1 (named_story "de" (Some 200))));
           SelectSlugs "en" None;
           SaveArticle (set_slug "my-story_2"
                          (set_author 1 (named_story "de" (Some 200))))].
Proof.
  split; [reflexivity|]. split.
  - intros (j & r & _ & Hr & Hv). apply elem_of_map_to_list in Hr.
    set (rows := map_to_list (articles db_two_languages)) in Hr.
    vm_compute in rows. subst rows.
    rewrite !elem_of_cons, elem_of_nil in Hr.
    destruct Hr as [[= -> ->]|[[= -> ->]|[]]]; vm_compute in Hv; discriminate.
  - eexists. split; [vm_compute; reflexivity|].
    split; [reflexivity|]. split; vm_compute; reflexivity.
Qed.

(** ** A failure that is not the slug collision *)

(** C3 as stated fails: an article without [publishing_date] violates the
    NOT NULL constraint at the direct save.  That [IntegrityError] is not
    the slug collision, and still it is caught: the slugs are queried, the
    slug of the instance becomes "my-story_1" and a second write is tried
    before the error of that second write reaches the caller. *)
Lemma not_null_failure_is_retried :
  Model_save no_fault
    {| db := db_my_story;
       self := set_slug "my-story" (set_author 1 (named_story "en" None));
       trace := [GetOrCreatePerson 7] |}
  = Raised (IntegrityError (NotNull "publishing_date"))
      {| db := db_my_story;
         self := set_slug "my-story" (set_author 1 (named_story "en" None));
         trace :=
           [GetOrCreatePerson 7;
            SaveArticle (set_slug "my-story"
                           (set_author 1 (named_story "en" None)))] |}
  ∧ save ascii_slugify no_fault ["en"] 3
      (fresh_state db_my_story (named_story "en" None))
    = Raised (IntegrityError (NotNull "publishing_date"))
        {| db := db_my_story;
           self := set_slug "my-story_1" (set_author 1 (named_story "en" None));
           trace :=
             [GetOrCreatePerson 7;
              SaveArticle (set_slug "my-story"
                             (set_author 1 (named_story "en" None)));
              SelectSlugs "en" None;
              SaveArticle (set_slug "my-story_1"
                             (set_author 1 (named_story "en" None)))] |}.
Proof. split; vm_compute; reflexivity. Qed.

(** ** A negative count *)

(** C7 as stated fails: the count is an integer field, and with a count
    below zero [get_articles] returns no list: the slice is refused. *)
Lemma get_articles_negative_count :
  get_articles ["en"] {| latest_entries := -1 |} db_my_story
  = Raised (AssertionError "Negative indexing is not supported.") db_my_story.
Proof. reflexivity. Qed.

(** ** The theorems at concrete inputs *)

Lemma while_True_terminates_at_my_story :
  name (named_story "en" (Some 200)) = Some "My Story"
  ∧ ∃ i,
      1 ≤ i ≤ 1 + Z.of_nat (length ["my-story_1"; "my-story_3"])
      ∧ (slugify ascii_slugify "My Story" (Some i)
         ∉ ["my-story_1"; "my-story_3"])
      ∧ (∀ k, 1 ≤ k < i →
           slugify ascii_slugify "My Story" (Some k)
           ∈ ["my-story_1"; "my-story_3"])
      ∧ ∀ fuel, (length ["my-story_1"; "my-story_3"] < fuel)%nat →
          while_True ascii_slugify no_fault fuel
            ["my-story_1"; "my-story_3"] 1
            (fresh_state db_my_story (named_story "en" (Some 200)))
          = Model_save no_fault
              (with_self
                 (set_slug (slugify ascii_slugify "My Story" (Some i)))
                 (fresh_state db_my_story (named_story "en" (Some 200)))).
Proof.
  split; [reflexivity|].
  exact (while_True_terminates ascii_slugify no_fault
           (fresh_state db_my_story (named_story "en" (Some 200)))
           "My Story" ["my-story_1"; "my-story_3"] eq_refl).
Defined.

Lemma slugs_unique_empty : slugs_unique (articles empty_db).
Proof.
  intros lang i j ri rj v Hi.
  change (articles empty_db) with (∅ : gmap Z ArticleRow) in Hi.
  by rewrite lookup_empty in Hi.
Defined.

Lemma slugs_unique_after_two_saves :
  slugs_unique (articles empty_db)
  ∧ ∃ d,
      reachable ascii_slugify no_fault ["en"] empty_db d
      ∧ size (articles d) = 2%nat
      ∧ ∀ lang i j ri rj vi vj,
          i ≠ j →
          articles d !! i = Some ri → articles d !! j = Some rj →
          slug_of lang ri = Some vi → slug_of lang rj = Some vj →
          vi ≠ vj.
Proof.
  split; [exact slugs_unique_empty|].
  assert (∃ d, reachable ascii_slugify no_fault ["en"] empty_db d
               ∧ size (articles d) = 2%nat) as (d & Hreach & Hsize).
  { eexists. split.
    - eapply reachable_save; [eapply reachable_save; [apply reachable_start|]|].
      + exists 3%nat, (named_story "en" (Some 200)), []. eexists.
        split; [left; vm_compute; reflexivity|reflexivity].
      + exists 3%nat, (named_story "en" (Some 300)), []. eexists.
        split; [left; vm_compute; reflexivity|reflexivity].
    - vm_compute. reflexivity. }
  exists d. split; [exact Hreach|]. split; [exact Hsize|].
  exact (sequential_saves_keep_slugs_unique ascii_slugify no_fault ["en"]
           empty_db d slugs_unique_empty Hreach).
Defined.

Lemma save_preset_slug_at_custom :
  slug (article_with_slug "en" "My Story" "my-story" (Some 200)) ≠ ""
  ∧ save ascii_slugify no_fault ["en"] 3
      (fresh_state db_my_story
         (article_with_slug "en" "My Story" "my-story" (Some 200)))
    = (ensure_author no_fault;; Model_save no_fault)
        (fresh_state db_my_story
           (article_with_slug "en" "My Story" "my-story" (Some 200))).
Proof.
  split; [discriminate|].
  exact (proj1 (save_preset_slug ascii_slugify no_fault ["en"] 3
                  (fresh_state db_my_story
                     (article_with_slug "en" "My Story" "my-story" (Some 200)))
                  ltac:(discriminate))).
Defined.

Lemma save_ensures_author_at_first_save :
  ∃ s',
    save ascii_slugify no_fault ["en"] 3
      (fresh_state empty_db (named_story "en" (Some 200)))
    = Returned tt s'
    ∧ ∃ p,
        author (self s') = Some p
        ∧ (∃ x, persons (db s') !! p = Some x ∧ person_user x = Some 7)
        ∧ one_person_per_user (persons (db s'))
        ∧ ∃ i r, pk (self s') = Some i
                 ∧ articles (db s') !! i = Some r
                 ∧ row_author r = Some p.
Proof.
  eexists. split; [vm_compute; reflexivity|].
  destruct (save_ensures_author ascii_slugify no_fault ["en"] 3
              (fresh_state empty_db (named_story "en" (Some 200))) _
              ltac:(vm_compute; reflexivity))
    as (p & Hp & Horigin & Hone & _ & Hrow).
  exists p. split; [exact Hp|]. split.
  - destruct Horigin as [Hgiven|[_ Hx]]; [discriminate Hgiven|exact Hx].
  - split; [|apply Hrow; discriminate].
    apply Hone. intros q1 q2 x y u Hx.
    change ((∅ : gmap Z Person) !! q1 = Some x) in Hx.
    by rewrite lookup_empty in Hx.
Defined.


Lemma get_articles_two_of_four :
  ∃ l,
    get_articles ["en"] {| latest_entries := 2 |} db_four_articles
    = Returned l db_four_articles
    ∧ l = [(2, stored "en" "Newest" "newest" 300);
           (3, stored "en" "Middle" "middle" 200)]
    ∧ StronglySorted newer_first l
    ∧ get_articles ["en"] {| latest_entries := -3 |} db_four_articles
      = Raised (AssertionError "Negative indexing is not supported.")
          db_four_articles.
Proof.
  destruct (get_articles_spec ["en"] {| latest_entries := 2 |} db_four_articles)
    as (Hsome & _ & _).
  destruct (Hsome ltac:(simpl; lia)) as (l & Hl & Htake & _ & _ & Hsorted & _).
  destruct (get_articles_spec ["en"] {| latest_entries := -3 |}
              db_four_articles) as (_ & Hnegative & _).
  exists l. split; [exact Hl|]. split.
  - rewrite Htake. vm_compute. reflexivity.
  - split; [exact Hsorted|]. apply Hnegative. simpl. lia.
Defined.

(** ** Further properties of [save] and of the plugin *)

(** X3: Lines 120-141: the loop over [LANGUAGE_CODES] returns in its first
    iteration, so the languages after the first never matter: a save with
    the list [lang :: rest] does what a save with the list [[lang]] does. *)
Theorem save_consults_first_language default_slugify fault lang rest fuel s :
  save default_slugify fault (lang :: rest) fuel s
  = save default_slugify fault [lang] fuel s.
Proof.
  assert (∀ s1, suffix_search default_slugify fault (lang :: rest) fuel s1
                = suffix_search default_slugify fault [lang] fuel s1)
    as Hsearch.
  { intros s1.
    rewrite (suffix_search_first_language default_slugify fault (lang :: rest)
               fuel lang rest s1 eq_refl).
    by rewrite (suffix_search_first_language default_slugify fault [lang]
                  fuel lang [] s1 eq_refl). }
  rewrite !save_unfold.
  destruct (ensure_author fault s) as [[] sa|e sa|]; [|done..].
  destruct (decide (slug (self sa) = "")) as [Hslug|Hslug].
  2:{ by rewrite !ensure_slug_preset. }
  destruct (name (self sa)) as [n|] eqn:Hname.
  2:{ by rewrite !ensure_slug_no_name. }
  rewrite !(ensure_slug_allocate _ _ _ fuel sa n Hslug Hname).
  unfold try_except.
  destruct (Model_save fault _) as [[] s1|e s1|]; [done| |done].
  by destruct (is_IntegrityError e).
Qed.

(** X14: Lines 163-164: the text of a plugin is "Latest entries: " followed
    by the count in decimal, with a minus sign in front of a negative one;
    for the default count it reads "Latest entries: 5".  The count can be
    read off the text: two plugins have the same text only if they have the
    same count. *)
Theorem LatestEntriesPlugin_str_inj p q :
  LatestEntriesPlugin_str p = "Latest entries: " +:+ pretty (latest_entries p)
  ∧ startswith (LatestEntriesPlugin_str p) "Latest entries: " = true
  ∧ LatestEntriesPlugin_str LatestEntriesPlugin_default = "Latest entries: 5"
  ∧ LatestEntriesPlugin_str {| latest_entries := -12 |} = "Latest entries: -12"
  ∧ (LatestEntriesPlugin_str p = LatestEntriesPlugin_str q
     ↔ latest_entries p = latest_entries q).
Proof.
  split; [done|]. split.
  { unfold LatestEntriesPlugin_str, startswith. simpl.
    by destruct (pretty (latest_entries p)). }
  split; [by vm_compute|]. split; [by vm_compute|].
  unfold LatestEntriesPlugin_str. split; [|by intros ->].
  intros H. apply (inj (String.app _)) in H. by apply (inj pretty) in H.
Qed.

(** ** The further properties at concrete inputs *)

Lemma save_not_OutOfFuel_at_my_story :
  (size (articles db_my_story) < 2)%nat
  ∧ save ascii_slugify no_fault ["en"] 2
      (fresh_state db_my_story (named_story "en" (Some 200)))
    ≠ OutOfFuel.
Proof.
  split; [vm_compute; lia|].
  apply (save_not_OutOfFuel ascii_slugify no_fault ["en"] 2
           (fresh_state db_my_story (named_story "en" (Some 200)))).
  vm_compute. lia.
Defined.

Lemma save_allocates_least_suffix_at_my_story :
  ∃ s',
    save ascii_slugify no_fault ["en"] 3
      (fresh_state db_my_story (named_story "en" (Some 200)))
    = Returned tt s'
    ∧ ∃ i, 1 ≤ i
           ∧ slug (self s') = slugify ascii_slugify "My Story" (Some i)
           ∧ ¬ held_by_other (articles db_my_story) None "en"
                 (slugify ascii_slugify "My Story" (Some i)).
Proof.
  eexists. split; [vm_compute; reflexivity|].
  edestruct (save_allocates_least_suffix ascii_slugify no_fault ["en"] 3
               (fresh_state db_my_story (named_story "en" (Some 200)))
               {| db := db_my_story;
                  self := set_author 1 (named_story "en" (Some 200));
                  trace := [GetOrCreatePerson 7] |}
               "My Story" UniqueLanguageSlug "en" [])
    as (i & Hi & Hslug & _ & Hfree & _);
    [vm_compute; reflexivity | reflexivity | reflexivity
    | vm_compute; reflexivity | reflexivity | vm_compute; reflexivity |].
  exists i. split; [exact Hi|]. split; [exact Hslug|exact Hfree].
Defined.

Lemma save_needs_name_at_my_story :
  save ascii_slugify no_fault ["en"] 3
    (fresh_state db_my_story (new_article "en" "My Story" (Some 200)))
  = Raised (AttributeError "name")
      {| db := db_my_story;
         self := set_author 1 (new_article "en" "My Story" (Some 200));
         trace := [GetOrCreatePerson 7] |}.
Proof.
  apply (save_needs_name ascii_slugify no_fault ["en"] 3
           (fresh_state db_my_story (new_article "en" "My Story" (Some 200))));
    reflexivity.
Defined.

Lemma save_storage_calls_at_my_story :
  ∃ s',
    final_state
      (save ascii_slugify no_fault ["en"] 3
         (fresh_state db_my_story (named_story "en" (Some 200))))
    = Some s'
    ∧ ∃ pre ops,
        trace s' = pre ++ ops
        ∧ (length pre ≤ 1)%nat ∧ (length ops ≤ 3)%nat.
Proof.
  eexists. split; [vm_compute; reflexivity|].
  edestruct (save_storage_calls ascii_slugify no_fault ["en"] 3
               (fresh_state db_my_story (named_story "en" (Some 200))))
    as (pre & ops & Htrace & Hpre & Hops); [vm_compute; reflexivity|].
  exists pre, ops. split; [exact Htrace|]. split.
  - destruct Hpre as [->|[_ ->]]; simpl; lia.
  - destruct Hops as [->|[a0 [->|(lang & _ & _ & [->|[v ->]])]]]; simpl; lia.
Defined.

Lemma save_instance_frame_at_my_story :
  ∃ s',
    final_state
      (save ascii_slugify no_fault ["en"] 3
         (fresh_state db_my_story (named_story "en" (Some 200))))
    = Some s'
    ∧ title (self s') = "My Story"
    ∧ language_code (self s') = "en"
    ∧ owner (self s') = alice
    ∧ publishing_date (self s') = Some 200
    ∧ name (self s') = Some "My Story".
Proof.
  eexists. split; [vm_compute; reflexivity|].
  edestruct (save_instance_frame ascii_slugify no_fault ["en"] 3
               (fresh_state db_my_story (named_story "en" (Some 200))))
    as (Ht & Hl & Ho & Hd & Hn & _); [vm_compute; reflexivity|].
  split; [exact Ht|]. split; [exact Hl|]. split; [exact Ho|].
  split; [exact Hd|exact Hn].
Defined.

Lemma save_person_effect_at_first_save :
  ∃ s',
    final_state
      (save ascii_slugify no_fault ["en"] 3
         (fresh_state empty_db (named_story "en" (Some 200))))
    = Some s'
    ∧ ∃ p,
        persons (db s')
        = <[p := {| person_user := Some 7; person_name := "Alice Doe" |}]> ∅
        ∧ author (self s') = Some p.
Proof.
  eexists. split; [vm_compute; reflexivity|].
  edestruct (save_person_effect ascii_slugify no_fault ["en"] 3
               (fresh_state empty_db (named_story "en" (Some 200))))
    as [Hsame|(_ & p & _ & _ & Hnew & Hp)]; [vm_compute; reflexivity| |].
  - vm_compute in Hsame. discriminate Hsame.
  - exists p. split; [exact Hnew|exact Hp].
Defined.

Lemma save_after_init_stores_at_my_story :
  ∃ s',
    init_LANGUAGE_CODES
      {| LANGUAGES := Some [("en", "English"); ("de", "German")];
         LANGUAGE := None |}
    = Returned ["en"; "de"]
        {| LANGUAGES := Some [("en", "English"); ("de", "German")];
           LANGUAGE := None |}
    ∧ save ascii_slugify no_fault ["en"; "de"] 3
        (fresh_state db_my_story (named_story "en" (Some 200)))
      = Returned tt s'
    ∧ ∃ i r,
        pk (self s') = Some i
        ∧ articles (db s') !! i = Some r
        ∧ row_translations r !! "en"
          = Some {| t_title := "My Story"; t_slug := slug (self s') |}.
Proof.
  eexists. split; [reflexivity|]. split; [vm_compute; reflexivity|].
  edestruct (save_after_init_stores ascii_slugify no_fault ["en"; "de"]
               {| LANGUAGES := Some [("en", "English"); ("de", "German")];
                  LANGUAGE := None |}
               {| LANGUAGES := Some [("en", "English"); ("de", "German")];
                  LANGUAGE := None |}
               3 (fresh_state db_my_story (named_story "en" (Some 200))))
    as (i & r & Hi & Hr & Ht & _); [reflexivity|vm_compute; reflexivity|].
  exists i, r. split; [exact Hi|]. split; [exact Hr|exact Ht].
Defined.

Lemma save_stores_free_base_at_first_save :
  ∃ s',
    save ascii_slugify no_fault ["en"] 3 (fresh_state db_my_story cleared_story)
    = Returned tt s'
    ∧ slug (self s') = "my-story"
    ∧ trace s' = [SaveArticle (set_slug "my-story" cleared_story)]
    ∧ ∃ r, pk (self s') = Some 1
           ∧ articles (db s') !! 1 = Some r
           ∧ slug_of "en" r = Some "my-story".
Proof.
  apply (save_stores_free_base ascii_slugify no_fault ["en"] 3
           (fresh_state db_my_story cleared_story)
           (fresh_state db_my_story cleared_story)
           "My Story" 100); [reflexivity..|].
  apply (bool_decide_eq_false_1 _). vm_compute. reflexivity.
Defined.

Lemma save_again_at_my_story :
  ∃ s' s'',
    save ascii_slugify no_fault ["en"] 3
      (fresh_state db_my_story (named_story "en" (Some 200)))
    = Returned tt s'
    ∧ save ascii_slugify no_fault ["en"] 3 s' = Returned tt s''
    ∧ db s'' = db s'
    ∧ self s'' = self s'.
Proof.
  eexists.
  edestruct (save_again_changes_nothing ascii_slugify no_fault ["en"] 3 3
               (fresh_state db_my_story (named_story "en" (Some 200))))
    as (s'' & Hagain & Hdb & Hself & _);
    [discriminate | vm_compute; reflexivity | vm_compute; discriminate
    | reflexivity |].
  exists s''. split; [vm_compute; reflexivity|].
  split; [exact Hagain|]. split; [exact Hdb|exact Hself].
Defined.

Lemma get_articles_count_at_my_story :
  0 ≤ latest_entries LatestEntriesPlugin_default
  ∧ ∃ l,
      get_articles ["en"] LatestEntriesPlugin_default db_my_story
      = Returned l db_my_story
      ∧ length l = 1%nat.
Proof.
  split; [done|].
  destruct (get_articles_count ["en"] LatestEntriesPlugin_default db_my_story
              ltac:(done))
    as (l & Hl & Hlen & _).
  exists l. split; [exact Hl|]. rewrite Hlen. vm_compute. reflexivity.
Defined.

Lemma get_articles_any_descending_order_at_four :
  get_articles ["en"] {| latest_entries := 2 |} db_four_articles
  = Returned [(2, stored "en" "Newest" "newest" 300);
              (3, stored "en" "Middle" "middle" 200)] db_four_articles
  ∧ ∃ lq,
      get_articles ["en"] {| latest_entries := 3 |} db_four_articles
      = Returned lq db_four_articles
      ∧ [(2, stored "en" "Newest" "newest" 300);
         (3, stored "en" "Middle" "middle" 200)] `prefix_of` lq.
Proof.
  destruct (get_articles_any_descending_order ["en"] {| latest_entries := 2 |}
              db_four_articles
              [(2, stored "en" "Newest" "newest" 300);
               (3, stored "en" "Middle" "middle" 200);
               (1, stored "en" "Old" "old" 100)])
    as [Hfirst Hlarger].
  - simpl. lia.
  - apply (bool_decide_unpack _). vm_compute. exact I.
  - assert (filter (λ kr : Z * ArticleRow,
                      has_active_translation ["en"] kr.2)
              (map_to_list (articles db_four_articles))
            = [(3, stored "en" "Middle" "middle" 200);
               (2, stored "en" "Newest" "newest" 300);
               (1, stored "en" "Old" "old" 100)]) as ->
      by (vm_compute; reflexivity).
    apply perm_swap.
  - repeat constructor; unfold newer_first; simpl; lia.
  - split; [exact Hfirst|].
    exact (Hlarger {| latest_entries := 3 |} ltac:(simpl; lia)).
Defined.
